(** * Queuectl: the dispatch core, embedded and verified

    A shallow embedding of the job model ([internal/job]), the backoff
    policy ([internal/retry]), the SQLite store ([internal/storage]) and the
    worker settlement logic ([internal/worker]) of the queuectl job queue,
    followed by the properties of its specification that were checked
    against it.

    Conventions.
    - Go [int] is a 64-bit two's-complement integer: it is a [Z] and every
      arithmetic operation of the source writes its wrap-around ([int_wrap]).
    - Go [string] is a [string]; [job.State] is a named string type, so it
      is a [string] too (the JSON decoder accepts any text for it).
    - [time.Time] is an instant (nanoseconds since the Unix epoch) with the
      offset of its location; [time.Now()] is an input of every function
      that reads the clock.
    - [float64] values are the rationals they denote ([Q]); [math.Pow] with
      an integral exponent is the exact power.
    - the [jobs] table is a finite map from the primary key [id] to a row.
*)

From Stdlib Require Import ZArith QArith Qround Qpower String Ascii List Lia.
From stdpp Require Import gmap strings.

Local Open Scope string_scope.
Local Open Scope Z_scope.

(* ===================================================================== *)
(** ** Go's [int] *)
(* ===================================================================== *)

Definition int_min : Z := - 2 ^ 63.
Definition int_max : Z := 2 ^ 63 - 1.

(** Two's-complement wrap-around of a 64-bit signed integer. *)
Definition int_wrap (z : Z) : Z := (z + 2 ^ 63) mod 2 ^ 64 - 2 ^ 63.

Definition is_int (z : Z) : Prop := int_min <= z <= int_max.

(* ===================================================================== *)
(** ** Package [time]: instants, durations and the RFC3339 layout

    These are functions of Go's standard library, not of the repository;
    they are written out from the library's documented behaviour so that
    the store's textual timestamps can be computed with. *)
(* ===================================================================== *)

Record Time : Type := mkTime {
  unixNano : Z;     (* nanoseconds since 1970-01-01T00:00:00Z *)
  zoneOffset : Z    (* seconds east of UTC of the time's location *)
}.

(** [time.Duration]: a count of nanoseconds. *)
Definition Duration : Type := Z.
Definition Second : Duration := 1000000000.

(** The zero [Time] is January 1, year 1, 00:00:00 UTC. *)
Definition zeroUnixSec : Z := -62135596800.
Definition zeroTime : Time := mkTime (zeroUnixSec * Second) 0.

Definition IsZero (t : Time) : bool := unixNano t =? unixNano zeroTime.
Definition UTC (t : Time) : Time := mkTime (unixNano t) 0.
Definition Add (t : Time) (d : Duration) : Time :=
  mkTime (unixNano t + d) (zoneOffset t).
Definition unixSec (t : Time) : Z := unixNano t / Second.

(** Proleptic Gregorian calendar: day number (days since 1970-01-01) to
    civil date and back. *)
Definition civil_from_days (z0 : Z) : Z * Z * Z :=
  let z := z0 + 719468 in
  let era := z / 146097 in
  let doe := z - era * 146097 in
  let yoe := (doe - doe / 1460 + doe / 36524 - doe / 146096) / 365 in
  let doy := doe - (365 * yoe + yoe / 4 - yoe / 100) in
  let mp := (5 * doy + 2) / 153 in
  let d := doy - (153 * mp + 2) / 5 + 1 in
  let m := if mp <? 10 then mp + 3 else mp - 9 in
  let y := yoe + era * 400 in
  ((if m <=? 2 then y + 1 else y), m, d).

Definition days_from_civil (y0 m d : Z) : Z :=
  let y := if m <=? 2 then y0 - 1 else y0 in
  let era := y / 400 in
  let yoe := y - era * 400 in
  let doy := (153 * (if 2 <? m then m - 3 else m + 9) + 2) / 5 + d - 1 in
  let doe := yoe * 365 + yoe / 4 - yoe / 100 + doy in
  era * 146097 + doe - 719468.

Definition isLeap (y : Z) : bool :=
  (y mod 4 =? 0) && (negb (y mod 100 =? 0) || (y mod 400 =? 0)).

Definition daysIn (m y : Z) : Z :=
  if m =? 2 then (if isLeap y then 29 else 28)
  else if (m =? 4) || (m =? 6) || (m =? 9) || (m =? 11) then 30 else 31.

(** Decimal digits. *)
Definition digit_char (d : Z) : ascii := ascii_of_nat (48 + Z.to_nat d).

Fixpoint utoa_aux (fuel : nat) (n : Z) (acc : string) : string :=
  match fuel with
  | O => acc
  | S fuel' =>
      let acc' := String (digit_char (n mod 10)) acc in
      if n <? 10 then acc' else utoa_aux fuel' (n / 10) acc'
  end.

Definition utoa (n : Z) : string := utoa_aux (S (Z.to_nat (Z.log2 n))) n "".

Fixpoint zeros (k : nat) : string :=
  match k with O => "" | S k' => String "0"%char (zeros k') end.

(** [appendInt]: decimal, zero-padded to [width], with a leading minus. *)
Definition appendInt (x : Z) (width : nat) : string :=
  let s := utoa (Z.abs x) in
  (if x <? 0 then "-" else "") ++ zeros (width - String.length s) ++ s.

(** The zone of the layout element [Z07:00]. *)
Definition formatZone (offset : Z) : string :=
  if offset =? 0 then "Z"
  else
    let zone := Z.quot offset 60 in
    (if zone <? 0 then "-" else "+")
      ++ appendInt (Z.abs zone / 60) 2 ++ ":" ++ appendInt (Z.abs zone mod 60) 2.

(** [t.Format(time.RFC3339)], layout [2006-01-02T15:04:05Z07:00]: the
    civil time in the time's own location, to the second, then the zone. *)
Definition Format (t : Time) : string :=
  let loc := unixSec t + zoneOffset t in
  let days := loc / 86400 in
  let rem := loc mod 86400 in
  let '(y, m, d) := civil_from_days days in
  appendInt y 4 ++ "-" ++ appendInt m 2 ++ "-" ++ appendInt d 2 ++ "T"
    ++ appendInt (rem / 3600) 2 ++ ":" ++ appendInt (rem mod 3600 / 60) 2
    ++ ":" ++ appendInt (rem mod 60) 2 ++ formatZone (zoneOffset t).

(** Parsing. *)
Definition isDigit (c : ascii) : bool :=
  let n := Z.of_nat (nat_of_ascii c) in (48 <=? n) && (n <=? 57).

Fixpoint atoi_aux (cs : list ascii) (acc : Z) : option Z :=
  match cs with
  | [] => Some acc
  | c :: cs' =>
      if isDigit c
      then atoi_aux cs' (acc * 10 + (Z.of_nat (nat_of_ascii c) - 48))
      else None
  end.

(** [parseUint s min max]: an unsigned decimal within [min..max]. *)
Definition parseUint (cs : list ascii) (lo hi : Z) : option Z :=
  match atoi_aux cs 0 with
  | Some x => if (lo <=? x) && (x <=? hi) then Some x else None
  | None => None
  end.

Definition slice (cs : list ascii) (i j : nat) : list ascii :=
  firstn (j - i) (skipn i cs).

Definition charAt (cs : list ascii) (i : nat) (c : ascii) : bool :=
  match nth_error cs i with
  | Some c' => Ascii.eqb c' c
  | None => false
  end.

(** The fractional second: a point followed by one or more digits, of
    which the first nine count. *)
Fixpoint span_digits (cs : list ascii) : list ascii * list ascii :=
  match cs with
  | c :: cs' =>
      if isDigit c
      then let '(ds, rest) := span_digits cs' in (c :: ds, rest)
      else ([], cs)
  | [] => ([], [])
  end.

Definition parseFraction (cs : list ascii) : Z * list ascii :=
  match cs with
  | c :: cs' =>
      if Ascii.eqb c "."%char then
        match span_digits cs' with
        | ([], _) => (0, cs)
        | (ds, rest) =>
            let ds9 := firstn 9 ds in
            match atoi_aux ds9 0 with
            | Some v => (v * 10 ^ Z.of_nat (9 - List.length ds9), rest)
            | None => (0, cs)
            end
        end
      else (0, cs)
  | [] => (0, cs)
  end.

Definition parseZone (cs : list ascii) : option Z :=
  match cs with
  | [c] => if Ascii.eqb c "Z"%char then Some 0 else None
  | _ =>
      if negb (Nat.eqb (List.length cs) 6) then None
      else
        match parseUint (slice cs 1 3) 0 23, parseUint (slice cs 4 6) 0 59 with
        | Some hr, Some mm =>
            if (charAt cs 0 "-"%char || charAt cs 0 "+"%char) && charAt cs 3 ":"%char
            then
              let off := (hr * 60 + mm) * 60 in
              Some (if charAt cs 0 "-"%char then - off else off)
            else None
        | _, _ => None
        end
  end.

(** [time.Parse(time.RFC3339, s)]: the time and whether parsing succeeded.
    This is the strict reading of the layout, field by field; the texts
    the store holds are written by [Format], which for a year in
    [0, 9999] writes exactly this layout. *)
Definition parseRFC3339 (s : string) : option Time :=
  let cs := list_ascii_of_string s in
  if (List.length cs <? 19)%nat then None
  else
    match parseUint (slice cs 0 4) 0 9999, parseUint (slice cs 5 7) 1 12 with
    | Some year, Some month =>
        match parseUint (slice cs 8 10) 1 (daysIn month year),
              parseUint (slice cs 11 13) 0 23,
              parseUint (slice cs 14 16) 0 59,
              parseUint (slice cs 17 19) 0 59 with
        | Some day, Some hour, Some min, Some sec =>
            if charAt cs 4 "-"%char && charAt cs 7 "-"%char
               && charAt cs 10 "T"%char && charAt cs 13 ":"%char
               && charAt cs 16 ":"%char
            then
              let '(nsec, rest) := parseFraction (skipn 19 cs) in
              match parseZone rest with
              | Some off =>
                  let civil := days_from_civil year month day * 86400
                               + hour * 3600 + min * 60 + sec in
                  Some (mkTime ((civil - off) * Second + nsec) off)
              | None => None
              end
            else None
        | _, _, _, _ => None
        end
    | _, _ => None
    end.

(** [t, _ := time.Parse(time.RFC3339, s)]: the error is dropped, and a
    failed parse leaves the zero [Time]. *)
Definition Parse (s : string) : Time :=
  match parseRFC3339 s with
  | Some t => t
  | None => zeroTime
  end.

(** What a timestamp becomes by being written as RFC3339 text and read
    back: its RFC3339 canonical form. *)
Definition canonical (t : Time) : Time := Parse (Format t).

(** The instant with its fraction of a second dropped. *)
Definition truncate_second (t : Time) : Time :=
  mkTime (unixSec t * Second) (zoneOffset t).

(** The year of the civil date of [t] in its own location. *)
Definition year_of (t : Time) : Z :=
  (civil_from_days ((unixSec t + zoneOffset t) / 86400)).1.1.

(** The times that the RFC3339 layout writes in full: a four-digit year
    and a zone offset of whole minutes, less than a day. *)
Definition representable (t : Time) : Prop :=
  0 <= year_of t <= 9999
  /\ zoneOffset t mod 60 = 0 /\ -86400 < zoneOffset t < 86400.

(** Fixed-width decimals, and the layout written with them. *)
Definition digits2 (n : Z) : string :=
  String (digit_char (n / 10)) (String (digit_char (n mod 10)) "").

Definition digits4 (n : Z) : string :=
  String (digit_char (n / 1000))
    (String (digit_char (n / 100 mod 10)) (digits2 (n mod 100))).

Definition render (y m d h mi s : Z) (zone : string) : string :=
  digits4 y ++ "-" ++ digits2 m ++ "-" ++ digits2 d ++ "T"
    ++ digits2 h ++ ":" ++ digits2 mi ++ ":" ++ digits2 s ++ zone.

(** [P] holds of every [z] with [0 <= z < n], checked by counting up. *)
Definition all_below (P : Z -> bool) (n : positive) : bool :=
  snd (Pos.iter (fun zb : Z * bool => (fst zb + 1, snd zb && P (fst zb)))
         (0, true) n).

(** The calendar within one era of 400 years (146097 days): the date of
    a day of the era, the day of the era of a date, and the check that
    the one undoes the other and gives a valid month and day. *)
Definition civil_of_doe (doe : Z) : Z * Z * Z :=
  let yoe := (doe - doe / 1460 + doe / 36524 - doe / 146096) / 365 in
  let doy := doe - (365 * yoe + yoe / 4 - yoe / 100) in
  let mp := (5 * doy + 2) / 153 in
  let d := doy - (153 * mp + 2) / 5 + 1 in
  let m := if mp <? 10 then mp + 3 else mp - 9 in
  (yoe, m, d).

Definition doe_of_civil (yoe m d : Z) : Z :=
  let doy := (153 * (if 2 <? m then m - 3 else m + 9) + 2) / 5 + d - 1 in
  yoe * 365 + yoe / 4 - yoe / 100 + doy.

Definition doe_ok (doe : Z) : bool :=
  let '(yoe, m, d) := civil_of_doe doe in
  (0 <=? yoe) && (yoe <=? 399) && (1 <=? m) && (m <=? 12) && (1 <=? d)
  && (d <=? daysIn m (yoe + (if m <=? 2 then 1 else 0)))
  && (doe_of_civil yoe m d =? doe).







(* ===================================================================== *)
(** ** Errors *)
(* ===================================================================== *)

(** A Go result [(T, error)]: the value, or the error's message. *)
Inductive result (A : Type) : Type :=
| Ok (a : A)
| Err (msg : string).
Arguments Ok {A} a.
Arguments Err {A} msg.

(* ===================================================================== *)
(** ** Package [job] (internal/job/job.go) *)
(* ===================================================================== *)

Definition StatePending : string := "pending".
Definition StateProcessing : string := "processing".
Definition StateCompleted : string := "completed".
Definition StateFailed : string := "failed".
Definition StateDead : string := "dead".

Record Job : Type := mkJob {
  ID : string;
  Command : string;
  State : string;
  Attempts : Z;
  MaxRetries : Z;
  CreatedAt : Time;
  UpdatedAt : Time;
  NextRetryAt : option Time;   (* *time.Time, nil is None *)
  WorkerID : string;
  Error : string;
  Output : string
}.

(** Field assignments [j.F = v]. *)
Definition set_ID (v : string) (j : Job) : Job :=
  mkJob v (Command j) (State j) (Attempts j) (MaxRetries j) (CreatedAt j)
        (UpdatedAt j) (NextRetryAt j) (WorkerID j) (Error j) (Output j).
Definition set_State (v : string) (j : Job) : Job :=
  mkJob (ID j) (Command j) v (Attempts j) (MaxRetries j) (CreatedAt j)
        (UpdatedAt j) (NextRetryAt j) (WorkerID j) (Error j) (Output j).
Definition set_Attempts (v : Z) (j : Job) : Job :=
  mkJob (ID j) (Command j) (State j) v (MaxRetries j) (CreatedAt j)
        (UpdatedAt j) (NextRetryAt j) (WorkerID j) (Error j) (Output j).
Definition set_MaxRetries (v : Z) (j : Job) : Job :=
  mkJob (ID j) (Command j) (State j) (Attempts j) v (CreatedAt j)
        (UpdatedAt j) (NextRetryAt j) (WorkerID j) (Error j) (Output j).
Definition set_CreatedAt (v : Time) (j : Job) : Job :=
  mkJob (ID j) (Command j) (State j) (Attempts j) (MaxRetries j) v
        (UpdatedAt j) (NextRetryAt j) (WorkerID j) (Error j) (Output j).
Definition set_UpdatedAt (v : Time) (j : Job) : Job :=
  mkJob (ID j) (Command j) (State j) (Attempts j) (MaxRetries j) (CreatedAt j)
        v (NextRetryAt j) (WorkerID j) (Error j) (Output j).
Definition set_NextRetryAt (v : option Time) (j : Job) : Job :=
  mkJob (ID j) (Command j) (State j) (Attempts j) (MaxRetries j) (CreatedAt j)
        (UpdatedAt j) v (WorkerID j) (Error j) (Output j).
Definition set_WorkerID (v : string) (j : Job) : Job :=
  mkJob (ID j) (Command j) (State j) (Attempts j) (MaxRetries j) (CreatedAt j)
        (UpdatedAt j) (NextRetryAt j) v (Error j) (Output j).
Definition set_Error (v : string) (j : Job) : Job :=
  mkJob (ID j) (Command j) (State j) (Attempts j) (MaxRetries j) (CreatedAt j)
        (UpdatedAt j) (NextRetryAt j) (WorkerID j) v (Output j).
Definition set_Output (v : string) (j : Job) : Job :=
  mkJob (ID j) (Command j) (State j) (Attempts j) (MaxRetries j) (CreatedAt j)
        (UpdatedAt j) (NextRetryAt j) (WorkerID j) (Error j) v.

(** [NewJob]: [uuid.New().String()] and [time.Now()] are inputs. *)
Definition NewJob (uuid : string) (now : Time) (command : string)
    (maxRetries : Z) : Job :=
  let now := UTC now in
  mkJob uuid command StatePending 0 maxRetries now now None "" "" "".

(** The keys a JSON payload may carry: [json.Unmarshal] assigns the keys
    that are present to the fields of a zero [Job] and leaves the others
    at their zero value. *)
Record Payload : Type := mkPayload {
  p_id : option string;
  p_command : option string;
  p_state : option string;
  p_attempts : option Z;
  p_max_retries : option Z;
  p_created_at : option Time;
  p_updated_at : option Time;
  p_next_retry_at : option Time;
  p_worker_id : option string;
  p_error : option string;
  p_output : option string
}.

Definition Unmarshal (p : Payload) : Job :=
  mkJob (default "" (p_id p)) (default "" (p_command p))
        (default "" (p_state p)) (default 0 (p_attempts p))
        (default 0 (p_max_retries p))
        (default zeroTime (p_created_at p))
        (default zeroTime (p_updated_at p))
        (p_next_retry_at p)
        (default "" (p_worker_id p)) (default "" (p_error p))
        (default "" (p_output p)).

(** [FromJSON]: [data] is the outcome of decoding the text ([None] when it
    is not a JSON object of the job's shape). *)
Definition FromJSON (uuid : string) (now : Time) (data : option Payload)
    : result Job :=
  match data with
  | None => Err "failed to parse job JSON"
  | Some p =>
      let job := Unmarshal p in
      (* Set defaults if not provided *)
      let job := if String.eqb (ID job) "" then set_ID uuid job else job in
      let job := if String.eqb (State job) ""
                 then set_State StatePending job else job in
      let job := if MaxRetries job =? 0 then set_MaxRetries 3 job else job in
      let now := UTC now in
      let job := if IsZero (CreatedAt job) then set_CreatedAt now job else job in
      let job := if IsZero (UpdatedAt job) then set_UpdatedAt now job else job in
      Ok job
  end.

Definition Validate (j : Job) : result unit :=
  if String.eqb (Command j) "" then Err "command cannot be empty"
  else if MaxRetries j <? 0 then Err "max_retries cannot be negative"
  else Ok tt.

Definition CanRetry (j : Job) : bool := Attempts j <? MaxRetries j.

Definition MarkAsProcessing (workerID : string) (now : Time) (j : Job) : Job :=
  set_UpdatedAt now (set_WorkerID workerID (set_State StateProcessing j)).

Definition MarkAsCompleted (output : string) (now : Time) (j : Job) : Job :=
  set_UpdatedAt now (set_Output output (set_State StateCompleted j)).

Definition MarkAsFailed (errMsg : string) (nextRetryAt : option Time)
    (now : Time) (j : Job) : Job :=
  let j := set_State StateFailed j in
  let j := set_Error errMsg j in
  let j := set_Attempts (int_wrap (Attempts j + 1)) j in
  let j := set_NextRetryAt nextRetryAt j in
  let j := set_UpdatedAt now j in
  set_WorkerID "" j.

Definition MarkAsDead (errMsg : string) (now : Time) (j : Job) : Job :=
  let j := set_State StateDead j in
  let j := set_Error errMsg j in
  let j := set_UpdatedAt now j in
  set_WorkerID "" j.

Definition ResetForRetry (now : Time) (j : Job) : Job :=
  let j := set_State StatePending j in
  let j := set_Attempts 0 j in
  let j := set_Error "" j in
  let j := set_NextRetryAt None j in
  let j := set_WorkerID "" j in
  set_UpdatedAt now j.

(* ===================================================================== *)
(** ** Package [retry] *)
(* ===================================================================== *)

(** The conversion [time.Duration(f)] of a float to an integer drops the
    fraction (rounds toward zero). *)
Definition float_to_int (q : Q) : Z := Z.quot (Qnum q) (Z.pos (Qden q)).

Definition maxDelaySeconds : Q := inject_Z 3600.

Definition CalculateBackoff (attempts : Z) (base : Q) : Duration :=
  let attempts := if attempts <? 0 then 0 else attempts in
  let base := if negb (Qle_bool 1 base) then inject_Z 2 else base in
  (* Calculate delay in seconds *)
  let delaySeconds := Qpower base attempts in
  (* Cap at reasonable maximum *)
  let delaySeconds :=
    if negb (Qle_bool delaySeconds maxDelaySeconds)
    then maxDelaySeconds else delaySeconds in
  int_wrap (float_to_int delaySeconds * Second).

Definition NextRetryTime (now : Time) (attempts : Z) (base : Q) : Time :=
  let delay := CalculateBackoff attempts base in
  Add now delay.

Definition GetNextRetryAt (now : Time) (attempts : Z) (base : Q)
    : option Time :=
  let t := NextRetryTime now attempts base in
  Some t.

(* ===================================================================== *)
(** ** Package [config] *)
(* ===================================================================== *)

Record Config : Type := mkConfig {
  cfg_MaxRetries : Z;
  cfg_BackoffBase : Q;
  cfg_DBPath : string;
  cfg_WorkerCount : Z
}.

Definition DefaultConfig (dbPath : string) : Config :=
  mkConfig 3 (inject_Z 2) dbPath 1.

(* ===================================================================== *)
(** ** Package [storage] (internal/storage/sqlite.go)

    The [jobs] table: [id] is the primary key, so the table is a finite
    map from [id] to the other ten columns.  Timestamps are stored as
    RFC3339 text; the nullable columns are options.  The failures of the
    database driver are inputs of [GetNextPendingJob_tx]; the other
    statements are taken with a driver that does not fail. *)
(* ===================================================================== *)

Record Row : Type := mkRow {
  col_command : string;
  col_state : string;
  col_attempts : Z;
  col_max_retries : Z;
  col_created_at : string;
  col_updated_at : string;
  col_next_retry_at : option string;
  col_worker_id : option string;
  col_error : option string;
  col_output : option string
}.

Abbreviation Store := (gmap string Row).

(** The row bound to the [VALUES (?, ...)] of [SaveJob]. *)
Definition row_of_job (j : Job) : Row :=
  mkRow (Command j) (State j) (Attempts j) (MaxRetries j)
        (Format (CreatedAt j)) (Format (UpdatedAt j))
        (Format <$> NextRetryAt j)
        (Some (WorkerID j)) (Some (Error j)) (Some (Output j)).

(** [ON CONFLICT(id) DO UPDATE SET ...]: every column of the new row but
    [created_at], which is not in the SET list. *)
Definition on_conflict_update (old excluded : Row) : Row :=
  mkRow (col_command excluded) (col_state excluded) (col_attempts excluded)
        (col_max_retries excluded) (col_created_at old)
        (col_updated_at excluded) (col_next_retry_at excluded)
        (col_worker_id excluded) (col_error excluded) (col_output excluded).

(** [SaveJob]: insert, or update on a conflicting [id]. *)
Definition SaveJob (j : Job) (s : Store) : Store :=
  match s !! ID j with
  | None => <[ID j := row_of_job j]> s
  | Some old => <[ID j := on_conflict_update old (row_of_job j)]> s
  end.

Definition ErrNoRows : string := "sql: no rows in result set".

(** The [Scan] of a row into a [Job], as [scanJob] and [scanJobFromRows]
    both do it: NULL leaves the field empty, and the three timestamps are
    parsed with the error dropped. *)
Definition job_of_row (id : string) (r : Row) : Job :=
  mkJob id (col_command r) (col_state r) (col_attempts r)
        (col_max_retries r)
        (Parse (col_created_at r)) (Parse (col_updated_at r))
        (Parse <$> col_next_retry_at r)
        (default "" (col_worker_id r)) (default "" (col_error r))
        (default "" (col_output r)).

(** [scanJob]: the row of a [QueryRow], if any, as a [Job]. *)
Definition scanJob (row : option (string * Row)) : result Job :=
  match row with
  | None => Err ErrNoRows
  | Some (id, r) => Ok (job_of_row id r)
  end.

(** [scanJobFromRows]: the current row of a [Query]. *)
Definition scanJobFromRows (row : string * Row) : Job :=
  job_of_row row.1 row.2.

(** [SELECT ... FROM jobs WHERE id = ?] *)
Definition GetJob (id : string) (s : Store) : result Job :=
  scanJob (pair id <$> s !! id).

(** [WHERE (state = ? OR (state = ? AND next_retry_at <= ?))] with the
    parameters [pending], [failed] and the current time as text.  A NULL
    [next_retry_at] makes the comparison unknown, which selects nothing;
    text is compared byte by byte. *)
Definition runnable (now : string) (r : Row) : bool :=
  String.eqb (col_state r) StatePending
  || (String.eqb (col_state r) StateFailed
      && match col_next_retry_at r with
         | Some t => String.leb t now
         | None => false
         end).

(** [ORDER BY created_at ASC LIMIT 1]: a row whose [created_at] text is
    least; among equal ones the store is free to pick, here the first in
    scan order. *)
Fixpoint first_by_created_at (l : list (string * Row))
    : option (string * Row) :=
  match l with
  | [] => None
  | x :: l' =>
      match first_by_created_at l' with
      | None => Some x
      | Some y =>
          if String.leb (col_created_at x.2) (col_created_at y.2)
          then Some x else Some y
      end
  end.

(** The SELECT of [GetNextPendingJob]. *)
Definition queryNext (now : string) (s : Store) : option (string * Row) :=
  first_by_created_at
    (List.filter (fun x => runnable now x.2) (map_to_list s)).

(** [SET state = ?, worker_id = ?, updated_at = ?] *)
Definition lock_row (workerID now : string) (r : Row) : Row :=
  mkRow (col_command r) StateProcessing (col_attempts r)
        (col_max_retries r) (col_created_at r) now (col_next_retry_at r)
        (Some workerID) (col_error r) (col_output r).

(** The UPDATE of [GetNextPendingJob],
    [WHERE id = ? AND (state = ? OR state = ?)]: the new table and the
    number of rows affected. *)
Definition execLock (workerID now id : string) (s : Store) : Store * Z :=
  match s !! id with
  | Some r =>
      if String.eqb (col_state r) StatePending
         || String.eqb (col_state r) StateFailed
      then (<[id := lock_row workerID now r]> s, 1)
      else (s, 0)
  | None => (s, 0)
  end.

(** [GetNextPendingJob] when the driver reports no failure, with the
    table as its SELECT reads it ([s_read]) and as its UPDATE finds it
    ([s]).  Returns the result and the table after the call; leaving
    without commit rolls back, and an UPDATE of no row has nothing to
    roll back. *)
Definition GetNextPendingJob_on (workerID : string) (now1 now2 : Time)
    (s_read s : Store) : result (option Job) * Store :=
  match scanJob (queryNext (Format now1) s_read) with
  | Err e =>
      if String.eqb e ErrNoRows then (Ok None, s) (* No jobs available *)
      else (Err ("failed to query next job: " ++ e), s)
  | Ok j =>
      (* Lock the job by updating its state *)
      let '(s', rows) := execLock workerID (Format now2) (ID j) s in
      if rows =? 0
      then (Ok None, s) (* Job was already taken by another worker *)
      else (Ok (Some (set_WorkerID workerID (set_State StateProcessing j))), s')
  end.

(** [GetNextPendingJob] when nothing else writes the table between its
    two statements. *)
Definition GetNextPendingJob (workerID : string) (now1 now2 : Time)
    (s : Store) : result (option Job) * Store :=
  GetNextPendingJob_on workerID now1 now2 s s.

(** The failures that the database driver can report to one
    [GetNextPendingJob]: of [db.Begin], of the SELECT (other than finding
    no row), of [tx.Exec], of [RowsAffected] and of [tx.Commit]. *)
Record Driver : Type := mkDriver {
  begin_err : option string;
  query_err : option string;
  exec_err : option string;
  rows_err : option string;
  commit_err : option string
}.

Definition no_failure : Driver := mkDriver None None None None None.



(** [GetNextPendingJob] with the driver's failures: the table as the
    SELECT reads it ([s_read]) and as the UPDATE finds it ([s]).  Every
    return before the commit leaves the transaction to the deferred
    [Rollback], so the table is as it was. *)
Definition GetNextPendingJob_tx (drv : Driver) (workerID : string)
    (now1 now2 : Time) (s_read s : Store) : result (option Job) * Store :=
  match begin_err drv with
  | Some e => (Err ("failed to begin transaction: " ++ e), s)
  | None =>
      match query_err drv with
      | Some e => (Err ("failed to query next job: " ++ e), s)
      | None =>
          match scanJob (queryNext (Format now1) s_read) with
          | Err _ => (Ok None, s) (* sql.ErrNoRows: no jobs available *)
          | Ok j =>
              (* Lock the job by updating its state *)
              match exec_err drv with
              | Some e => (Err ("failed to lock job: " ++ e), s)
              | None =>
                  let '(s', rows) :=
                    execLock workerID (Format now2) (ID j) s in
                  match rows_err drv with
                  | Some e => (Err ("failed to get rows affected: " ++ e), s)
                  | None =>
                      if rows =? 0
                      then (Ok None, s) (* already taken by another worker *)
                      else
                        match commit_err drv with
                        | Some e =>
                            (Err ("failed to commit transaction: " ++ e), s)
                        | None =>
                            (Ok (Some (set_WorkerID workerID
                                         (set_State StateProcessing j))), s')
                        end
                  end
              end
          end
      end
  end.

(** [DeleteJob] *)
Definition DeleteJob (id : string) (s : Store) : Store := delete id s.

(** [ORDER BY created_at DESC] *)
Fixpoint insert_desc (x : string * Row) (l : list (string * Row))
    : list (string * Row) :=
  match l with
  | [] => [x]
  | y :: l' =>
      if String.leb (col_created_at y.2) (col_created_at x.2)
      then x :: l else y :: insert_desc x l'
  end.

Definition order_by_created_at_desc (l : list (string * Row))
    : list (string * Row) :=
  foldr insert_desc [] l.

(** [ListJobs]: all jobs, or those in [state], newest first. *)
Definition ListJobs (state : string) (s : Store) : list Job :=
  let rows :=
    if String.eqb state "" then map_to_list s
    else List.filter (fun x => String.eqb (col_state x.2) state)
                     (map_to_list s) in
  map scanJobFromRows (order_by_created_at_desc rows).

(** [GetDLQJobs] *)
Definition GetDLQJobs (s : Store) : list Job := ListJobs StateDead s.

(* ===================================================================== *)
(** ** Package [cli]: the enqueue command *)
(* ===================================================================== *)

(** The [RunE] of [enqueueCmd]: the job saved and the table, or the error. *)
Definition enqueueCmd (cfg : Config) (uuid : string) (now : Time)
    (data : option Payload) (s : Store) : result (Job * Store) :=
  (* Parse job from JSON *)
  match FromJSON uuid now data with
  | Err e => Err ("invalid job JSON: " ++ e)
  | Ok j =>
      (* Validate job *)
      match Validate j with
      | Err e => Err ("invalid job: " ++ e)
      | Ok _ =>
          (* Use config default for max_retries if not specified *)
          let j := if MaxRetries j =? 0
                   then set_MaxRetries (cfg_MaxRetries cfg) j else j in
          (* Save to storage *)
          Ok (j, SaveJob j s)
      end
  end.

(** The [RunE] of [dlqRetryCmd]: a job that is not there or not dead is
    an error and changes nothing. *)
Definition dlqRetryCmd (now : Time) (jobID : string) (s : Store)
    : result Store :=
  match GetJob jobID s with
  | Err e => Err ("failed to get job: " ++ e)
  | Ok j =>
      (* Verify it's in DLQ *)
      if negb (String.eqb (State j) StateDead)
      then Err ("job " ++ jobID ++ " is not in the Dead Letter Queue")
      else
        (* Reset for retry, save updated job *)
        Ok (SaveJob (ResetForRetry now j) s)
  end.

(** The [RunE] of [dlqDeleteCmd]. *)
Definition dlqDeleteCmd (jobID : string) (s : Store) : result Store :=
  match GetJob jobID s with
  | Err e => Err ("failed to get job: " ++ e)
  | Ok j =>
      if negb (String.eqb (State j) StateDead)
      then Err ("job " ++ jobID ++ " is not in the Dead Letter Queue")
      else Ok (DeleteJob jobID s)
  end.

(** The [RunE] of [dlqClearCmd] with [--force]. *)
Definition dlqClearCmd (s : Store) : Store :=
  fold_left (fun s j => DeleteJob (ID j) s) (GetDLQJobs s) s.

(* ===================================================================== *)
(** ** Package [worker] (internal/worker/worker.go) *)
(* ===================================================================== *)

(** What running the command gave: the two captured streams and the error
    of [cmd.Run()], if any. *)
Record Execution : Type := mkExecution {
  stdout : string;
  stderr : string;
  runErr : option string
}.

(** The clock readings of one [processNext]. *)
Record Clock : Type := mkClock {
  t_select : Time;      (* GetNextPendingJob, the SELECT's parameter *)
  t_lock : Time;        (* GetNextPendingJob, the UPDATE's parameter *)
  t_processing : Time;  (* MarkAsProcessing *)
  t_retry : Time;       (* NextRetryTime *)
  t_settle : Time       (* MarkAsCompleted, MarkAsFailed, MarkAsDead *)
}.

Definition newline : string := String (ascii_of_nat 10) "".

Definition handleSuccess (clk : Clock) (output : string) (j : Job)
    (s : Store) : Job * Store :=
  let j := MarkAsCompleted output (t_settle clk) j in
  (j, SaveJob j s).

Definition handleFailure (cfg : Config) (clk : Clock) (execErr output : string)
    (j : Job) (s : Store) : Job * Store :=
  let errMsg :=
    if String.eqb output "" then execErr
    else execErr ++ newline ++ "Output: " ++ output in
  (* Check if we can retry *)
  let j :=
    if CanRetry j then
      (* Calculate next retry time with exponential backoff *)
      let nextRetryAt :=
        GetNextRetryAt (t_retry clk) (Attempts j) (cfg_BackoffBase cfg) in
      MarkAsFailed errMsg nextRetryAt (t_settle clk) j
    else
      (* Move to Dead Letter Queue *)
      MarkAsDead errMsg (t_settle clk) j in
  (j, SaveJob j s).

Definition executeJob (workerID : string) (cfg : Config) (clk : Clock)
    (run : Execution) (j : Job) (s : Store) : Job * Store :=
  (* Mark as processing *)
  let j := MarkAsProcessing workerID (t_processing clk) j in
  let s := SaveJob j s in
  let output :=
    if (0 <? String.length (stderr run))%nat
    then stdout run ++ newline ++ "STDERR:" ++ newline ++ stderr run
    else stdout run in
  match runErr run with
  | Some err => handleFailure cfg clk err output j s
  | None => handleSuccess clk output j s
  end.

(** [processNext]: one tick of a worker. *)
Definition processNext (workerID : string) (cfg : Config) (clk : Clock)
    (run : Execution) (s : Store) : Store :=
  match GetNextPendingJob workerID (t_select clk) (t_lock clk) s with
  | (Err _, s) => s
  | (Ok None, s) => s (* No jobs available *)
  | (Ok (Some j), s) => snd (executeJob workerID cfg clk run j s)
  end.

(* ===================================================================== *)
(** ** Notions used by the properties *)
(* ===================================================================== *)

(** A job with each timestamp in RFC3339 canonical form: what it is equal
    to modulo the textual canonicalization of its timestamps. *)
Definition canonical_job (j : Job) : Job :=
  mkJob (ID j) (Command j) (State j) (Attempts j) (MaxRetries j)
        (canonical (CreatedAt j)) (canonical (UpdatedAt j))
        (canonical <$> NextRetryAt j)
        (WorkerID j) (Error j) (Output j).

(** One tick of one worker: who polls, what the clock reads, and what
    running the claimed command gives. *)
Record Tick : Type := mkTick {
  k_worker : string;
  k_clock : Clock;
  k_run : Execution
}.

Definition tick (cfg : Config) (t : Tick) (s : Store) : Store :=
  processNext (k_worker t) cfg (k_clock t) (k_run t) s.

Definition run_ticks (cfg : Config) (ticks : list Tick) (s : Store) : Store :=
  fold_left (fun s t => tick cfg t s) ticks s.

(** Every tick of the list claims the job [id], and its command fails. *)
Fixpoint each_tick_fails (cfg : Config) (id : string) (ticks : list Tick)
    (s : Store) : bool :=
  match ticks with
  | [] => true
  | t :: ticks' =>
      match queryNext (Format (t_select (k_clock t))) s with
      | Some (i, _) => String.eqb i id
      | None => false
      end
      && match runErr (k_run t) with Some _ => true | None => false end
      && each_tick_fails cfg id ticks' (tick cfg t s)
  end.

(** The error message that [handleFailure] records. *)
Definition errMsg_of (execErr output : string) : string :=
  if String.eqb output "" then execErr
  else execErr ++ newline ++ "Output: " ++ output.

(** The output that [executeJob] passes on. *)
Definition output_of (run : Execution) : string :=
  if (0 <? String.length (stderr run))%nat
  then stdout run ++ newline ++ "STDERR:" ++ newline ++ stderr run
  else stdout run.

(** The job as [handleFailure] leaves it: retried while [CanRetry] holds
    of the job it is given, dead otherwise. *)
Definition settled_failure (cfg : Config) (clk : Clock)
    (execErr output : string) (j : Job) : Job :=
  if CanRetry j
  then MarkAsFailed (errMsg_of execErr output)
         (GetNextRetryAt (t_retry clk) (Attempts j) (cfg_BackoffBase cfg))
         (t_settle clk) j
  else MarkAsDead (errMsg_of execErr output) (t_settle clk) j.

(** A client's enqueue payload: the keys [id?], [command], [max_retries?]. *)
Definition client_payload (id : option string) (command : string)
    (max_retries : option Z) : Payload :=
  mkPayload id (Some command) None None max_retries
            None None None None None None.

(** The attempts and the base that [CalculateBackoff] computes with. *)
Definition clamped_attempts (attempts : Z) : Z :=
  if attempts <? 0 then 0 else attempts.

Definition effective_base (base : Q) : Q :=
  if negb (Qle_bool 1 base) then inject_Z 2 else base.

(** The delay in seconds before the conversion to a [Duration]:
    [min(base^attempts, 3600)]. *)
Definition capped_delay (attempts : Z) (base : Q) : Q :=
  let d := Qpower (effective_base base) (clamped_attempts attempts) in
  if negb (Qle_bool d maxDelaySeconds) then maxDelaySeconds else d.


(** ** Concurrent claims

    Several callers run [GetNextPendingJob] against the one table.  Each
    call is two statements, its SELECT and its UPDATE; a statement is
    atomic, and the statements of different calls interleave in any order
    (the table's transactions may serialise more than that, never less).
    Only claims run here: nothing else writes the table meanwhile. *)

Inductive Call : Type :=
| Started                                  (* before the SELECT *)
| Selected (j : Job)                       (* candidate scanned, UPDATE to come *)
| Returned (r : result (option Job)).      (* the call has returned *)

Record Caller : Type := mkCaller {
  c_worker : string;
  c_call : Call
}.

(** The next statement of a call, run on the table as it is now. *)
Definition call_step (workerID : string) (now : Time) (c : Call) (s : Store)
    : Call * Store :=
  match c with
  | Started =>
      match scanJob (queryNext (Format now) s) with
      | Err e =>
          if String.eqb e ErrNoRows then (Returned (Ok None), s)
          else (Returned (Err ("failed to query next job: " ++ e)), s)
      | Ok j => (Selected j, s)
      end
  | Selected j =>
      let '(s', rows) := execLock workerID (Format now) (ID j) s in
      if rows =? 0 then (Returned (Ok None), s)
      else (Returned (Ok (Some (set_WorkerID workerID
                                  (set_State StateProcessing j)))), s')
  | Returned r => (Returned r, s)
  end.

(** Caller [i] runs its next statement at clock reading [now]. *)
Definition sys_step (i : nat) (now : Time) (sys : list Caller * Store)
    : list Caller * Store :=
  match sys.1 !! i with
  | Some c =>
      let '(c', s') := call_step (c_worker c) now (c_call c) sys.2 in
      (<[i := mkCaller (c_worker c) c']> sys.1, s')
  | None => sys
  end.

(** A schedule: which caller moves next, and what its clock reads. *)
Definition run (sched : list (nat * Time)) (sys : list Caller * Store)
    : list Caller * Store :=
  fold_left (fun sys x => sys_step x.1 x.2 sys) sched sys.

Definition start (workers : list string) (s : Store) : list Caller * Store :=
  (map (fun w => mkCaller w Started) workers, s).

(** What holds of the calls that have returned a job. *)
Definition stamped (c : Caller) (j : Job) (s : Store) : Prop :=
  State j = StateProcessing /\ WorkerID j = c_worker c /\
  exists r, s !! ID j = Some r /\ col_state r = StateProcessing /\
            col_worker_id r = Some (c_worker c).

Definition claims_inv (sys : list Caller * Store) : Prop :=
  (forall i c j, sys.1 !! i = Some c -> c_call c = Returned (Ok (Some j)) ->
     stamped c j sys.2)
  /\ (forall i i' c c' j j',
        sys.1 !! i = Some c -> sys.1 !! i' = Some c' ->
        c_call c = Returned (Ok (Some j)) ->
        c_call c' = Returned (Ok (Some j')) ->
        ID j = ID j' -> i = i').


(* ===================================================================== *)
(** ** The dispatch core as a transition system

    Clients and workers share the table.  A worker's tick is four atomic
    statements on it: the SELECT and the UPDATE of [GetNextPendingJob],
    the save of [MarkAsProcessing], and the save of the settlement; the
    job in hand lives in the worker's memory between them.  Clients
    enqueue payloads with the keys [id?], [command], [max_retries?] and
    run the DLQ commands.  Statements of different actors interleave in
    any order. *)
(* ===================================================================== *)

Inductive Phase : Type :=
| Idle                   (* between ticks *)
| Candidate (j : Job)    (* the SELECT has returned a candidate *)
| Claimed (j : Job)      (* GetNextPendingJob has returned the job *)
| Running (j : Job).     (* marked as processing and saved; the command runs *)

Record Worker : Type := mkWorker {
  w_id : string;
  w_phase : Phase
}.

(** The next statement of a worker; [run] is what its command gives. *)
Definition worker_step (cfg : Config) (clk : Clock) (run : Execution)
    (w : Worker) (s : Store) : Worker * Store :=
  match w_phase w with
  | Idle =>
      match scanJob (queryNext (Format (t_select clk)) s) with
      | Ok j => (mkWorker (w_id w) (Candidate j), s)
      | Err _ => (w, s)
      end
  | Candidate j =>
      let '(s', rows) := execLock (w_id w) (Format (t_lock clk)) (ID j) s in
      if rows =? 0 then (mkWorker (w_id w) Idle, s)
      else (mkWorker (w_id w)
              (Claimed (set_WorkerID (w_id w) (set_State StateProcessing j))),
            s')
  | Claimed j =>
      let j := MarkAsProcessing (w_id w) (t_processing clk) j in
      (mkWorker (w_id w) (Running j), SaveJob j s)
  | Running j =>
      let '(_, s') :=
        match runErr run with
        | Some err => handleFailure cfg clk err (output_of run) j s
        | None => handleSuccess clk (output_of run) j s
        end in
      (mkWorker (w_id w) Idle, s')
  end.

Inductive Event : Type :=
| EvEnqueue (uuid : string) (now : Time)
            (id : option string) (command : string) (max_retries : option Z)
| EvDlqRetry (now : Time) (jobID : string)
| EvDlqDelete (jobID : string)
| EvDlqClear
| EvWorker (i : nat) (clk : Clock) (run : Execution).

Definition World : Type := list Worker * Store.

Definition step (cfg : Config) (w : World) (e : Event) : World :=
  match e with
  | EvEnqueue uuid now id command max_retries =>
      match enqueueCmd cfg uuid now
              (Some (client_payload id command max_retries)) w.2 with
      | Ok (_, s) => (w.1, s)
      | Err _ => w
      end
  | EvDlqRetry now jobID =>
      match dlqRetryCmd now jobID w.2 with
      | Ok s => (w.1, s)
      | Err _ => w
      end
  | EvDlqDelete jobID =>
      match dlqDeleteCmd jobID w.2 with
      | Ok s => (w.1, s)
      | Err _ => w
      end
  | EvDlqClear => (w.1, dlqClearCmd w.2)
  | EvWorker i clk run =>
      match w.1 !! i with
      | Some wk =>
          let '(wk', s) := worker_step cfg clk run wk w.2 in
          (<[i := wk']> w.1, s)
      | None => w
      end
  end.

Definition run_events (cfg : Config) (events : list Event) (w : World)
    : World :=
  fold_left (step cfg) events w.

(** The workers idle at an empty table. *)
Definition boot (ids : list string) : World :=
  (map (fun id => mkWorker id Idle) ids, ∅).

(** A decoded [max_retries] is a Go [int]. *)
Definition event_ok (e : Event) : Prop :=
  match e with
  | EvEnqueue _ _ _ _ max_retries => is_int (default 0 max_retries)
  | _ => True
  end.

(** What the transitions keep true of every row. *)
Definition row_inv (r : Row) : Prop :=
  is_int (col_attempts r) /\ is_int (col_max_retries r)
  /\ (col_state r = StateFailed ->
      col_next_retry_at r <> None /\ col_attempts r <= col_max_retries r)
  /\ (col_state r = StateProcessing ->
      exists w, col_worker_id r = Some w /\ w <> "").

Definition job_inv (j : Job) : Prop :=
  is_int (Attempts j) /\ is_int (MaxRetries j).

Definition worker_inv (w : Worker) : Prop :=
  w_id w <> ""
  /\ match w_phase w with
     | Idle => True
     | Candidate j | Claimed j | Running j => job_inv j
     end.

Definition table_inv (s : Store) : Prop :=
  forall id r, s !! id = Some r -> row_inv r.

Definition world_inv (w : World) : Prop :=
  Forall worker_inv w.1 /\ table_inv w.2.

(** Some statements of a worker in a row. *)
Definition worker_steps (n : nat) (cfg : Config) (clk : Clock)
    (run : Execution) (ws : Worker * Store) : Worker * Store :=
  Nat.iter n (fun ws => worker_step cfg clk run ws.1 ws.2) ws.

(* ===================================================================== *)
(** ** Sample data *)
(* ===================================================================== *)

(** 2023-11-14T22:13:20Z, and instants some seconds after it. *)
Definition t0 : Time := mkTime (1700000000 * Second) 0.
Definition after_t0 (sec : Z) : Time := Add t0 (sec * Second).

Definition sample_cfg : Config := DefaultConfig "queuectl.db".

Definition failing_run : Execution :=
  mkExecution "" "" (Some "exit status 1").

Definition passing_run : Execution := mkExecution "hi" "" None.

(** A tick of worker [w] that reads the clock [sec] seconds after [t0]. *)
Definition tick_at (w : string) (sec : Z) (run : Execution) : Tick :=
  let t := after_t0 sec in mkTick w (mkClock t t t t t) run.

(** Three failing ticks, each after the retry time set by the one before
    (delays of 1 s and 2 s at base 2). *)
Definition three_failing_ticks : list Tick :=
  [tick_at "w-aaaa" 1 failing_run; tick_at "w-aaaa" 3 failing_run;
   tick_at "w-aaaa" 6 failing_run].

(** A job that has failed once and waits for its retry, 2 s after [t0]. *)
Definition failed_once : Job :=
  mkJob "job-1" "exit 1" StateFailed 1 2 (UTC t0) (after_t0 1)
        (Some (after_t0 2)) "" "exit status 1" "".

(** The same job once a worker has claimed it for the retry. *)
Definition retrying : Job :=
  MarkAsProcessing "w-aaaa" (after_t0 3) failed_once.

(** A job in [processing] that tolerates one failure and has had none. *)
Definition last_chance : Job :=
  mkJob "job-2" "exit 1" StateProcessing 0 1 (UTC t0) (after_t0 1)
        None "w-aaaa" "" "".

(** A configuration whose default for [max_retries] is 5. *)
Definition cfg_five : Config := mkConfig 5 (inject_Z 2) "queuectl.db" 1.

(** A pending job created 5 s after [t0], and the table that holds it
    together with the older [failed_once]. *)
Definition pending_late : Job :=
  mkJob "job-0" "echo hi" StatePending 0 3 (after_t0 5) (after_t0 5)
        None "" "" "".

Definition two_runnable : Store := SaveJob pending_late (SaveJob failed_once ∅).

(** [failed_once] enqueued again under the same id, 100 s later. *)
Definition enqueued_again : Job :=
  mkJob "job-1" "exit 0" StatePending 0 3 (after_t0 100) (after_t0 100)
        None "" "" "".

(** One worker; a client enqueues a job that tolerates one failure, and
    the worker selects it and locks it. *)
Definition events_claimed : list Event :=
  [EvEnqueue "uuid-0" t0 (Some "job-2") "exit 1" (Some 1);
   EvWorker 0 (k_clock (tick_at "w-aaaa" 1 failing_run)) failing_run;
   EvWorker 0 (k_clock (tick_at "w-aaaa" 1 failing_run)) failing_run].

(** The worker then marks the job, runs it, and settles its failure. *)
Definition events_failed : list Event :=
  events_claimed ++
  [EvWorker 0 (k_clock (tick_at "w-aaaa" 1 failing_run)) failing_run;
   EvWorker 0 (k_clock (tick_at "w-aaaa" 1 failing_run)) failing_run].

(** Three seconds later the worker selects the failed job again and
    locks it for the retry. *)
Definition events_reclaimed : list Event :=
  events_failed ++
  [EvWorker 0 (k_clock (tick_at "w-aaaa" 4 failing_run)) failing_run;
   EvWorker 0 (k_clock (tick_at "w-aaaa" 4 failing_run)) failing_run].



(** A payload that carries a state and an attempt count of its own. *)
Definition payload_failed : Payload :=
  mkPayload (Some "job-f") (Some "exit 1") (Some StateFailed) (Some 7)
            (Some 2) None None None None None None.

Arguments Format : simpl never.
Arguments Parse : simpl never.
Arguments int_wrap : simpl never.
Arguments digit_char : simpl never.

(* ===================================================================== *)
(** * Properties *)
(* ===================================================================== *)

(** ** The byte order on text *)

Section TextOrder.

Lemma ascii_compare_lt_trans (a b c : ascii) :
  Ascii.compare a b = Lt -> Ascii.compare b c = Lt -> Ascii.compare a c = Lt.
Proof.
  unfold Ascii.compare. rewrite !N.compare_lt_iff. lia.
Qed.

Lemma ascii_compare_refl (a : ascii) : Ascii.compare a a = Eq.
Proof. unfold Ascii.compare. apply N.compare_refl. Qed.

Lemma string_compare_refl (s : string) : String.compare s s = Eq.
Proof.
  induction s as [|a s IH]; simpl; [reflexivity|].
  now rewrite ascii_compare_refl.
Qed.

Lemma string_compare_lt_trans (s1 s2 s3 : string) :
  String.compare s1 s2 = Lt -> String.compare s2 s3 = Lt ->
  String.compare s1 s3 = Lt.
Proof.
  revert s2 s3.
  induction s1 as [|a s1 IH]; intros [|b s2] [|c s3]; simpl; try congruence.
  destruct (Ascii.compare a b) eqn:Hab; try congruence;
    destruct (Ascii.compare b c) eqn:Hbc; try congruence; intros H12 H23.
  - apply Ascii.compare_eq_iff in Hab, Hbc. subst.
    rewrite ascii_compare_refl. eauto.
  - apply Ascii.compare_eq_iff in Hab. subst. now rewrite Hbc.
  - apply Ascii.compare_eq_iff in Hbc. subst. now rewrite Hab.
  - now rewrite (ascii_compare_lt_trans _ _ _ Hab Hbc).
Qed.

Lemma string_leb_cases (s1 s2 : string) :
  String.leb s1 s2 = true <-> s1 = s2 \/ String.compare s1 s2 = Lt.
Proof.
  unfold String.leb. split.
  - destruct (String.compare s1 s2) eqn:E; try discriminate; intros _.
    + left. now apply String.compare_eq_iff.
    + now right.
  - intros [-> | ->]; [now rewrite string_compare_refl | reflexivity].
Qed.

Lemma string_leb_refl (s : string) : String.leb s s = true.
Proof. apply string_leb_cases. now left. Qed.

Lemma string_leb_trans (s1 s2 s3 : string) :
  String.leb s1 s2 = true -> String.leb s2 s3 = true ->
  String.leb s1 s3 = true.
Proof.
  rewrite !string_leb_cases.
  intros [-> | H12] [-> | H23]; auto.
  right. eapply string_compare_lt_trans; eauto.
Qed.

End TextOrder.

(** ** The SELECT of the claim: a least runnable row *)

Section Selection.

Implicit Types (l : list (string * Row)) (x y : string * Row).

Lemma first_by_created_at_None l :
  first_by_created_at l = None <-> l = [].
Proof.
  destruct l as [|x l]; simpl; [tauto|].
  split; [|discriminate].
  destruct (first_by_created_at l) as [y|]; [|discriminate].
  now destruct (String.leb _ _).
Qed.

Lemma first_by_created_at_In l x :
  first_by_created_at l = Some x -> In x l.
Proof.
  revert x. induction l as [|a l IH]; simpl; intros x; [discriminate|].
  destruct (first_by_created_at l) as [y|].
  - destruct (String.leb _ _); intros [= <-]; auto.
  - intros [= <-]. auto.
Qed.

Lemma first_by_created_at_least l x :
  first_by_created_at l = Some x ->
  forall y, In y l ->
    String.leb (col_created_at x.2) (col_created_at y.2) = true.
Proof.
  revert x. induction l as [|a l IH]; simpl; intros x; [discriminate|].
  destruct (first_by_created_at l) as [m|] eqn:Hm.
  - destruct (String.leb (col_created_at a.2) (col_created_at m.2)) eqn:Ham;
      intros [= <-] y [<- | Hy].
    + apply string_leb_refl.
    + eapply string_leb_trans; [exact Ham|]. now apply IH.
    + destruct (String.leb_total (col_created_at a.2) (col_created_at m.2))
        as [H|H]; congruence.
    + now apply IH.
  - apply first_by_created_at_None in Hm. subst l.
    intros [= <-] y [<- | []]. apply string_leb_refl.
Qed.

Lemma queryNext_Some now (s : Store) id row :
  queryNext now s = Some (id, row) ->
  s !! id = Some row /\ runnable now row = true /\
  forall i r, s !! i = Some r -> runnable now r = true ->
    String.leb (col_created_at row) (col_created_at r) = true.
Proof.
  unfold queryNext. intros H.
  pose proof (first_by_created_at_In _ _ H) as Hin.
  apply filter_In in Hin as [Hin Hrun].
  apply list_elem_of_In, elem_of_map_to_list in Hin.
  repeat split; auto.
  intros i r Hi Hr.
  apply (first_by_created_at_least _ _ H (i, r)).
  apply filter_In. split; [|exact Hr].
  now apply list_elem_of_In, elem_of_map_to_list.
Qed.



(** A runnable row is in [pending] or [failed]: the UPDATE's guard. *)
Lemma runnable_guard now (r : Row) :
  runnable now r = true ->
  String.eqb (col_state r) StatePending
  || String.eqb (col_state r) StateFailed = true.
Proof.
  unfold runnable.
  destruct (String.eqb (col_state r) StatePending); [reflexivity|].
  destruct (String.eqb (col_state r) StateFailed); simpl; auto.
Qed.

End Selection.

(** ** The claim protocol ([GetNextPendingJob]) *)

Section Claim.

Variables (workerID : string) (now1 now2 : Time).

(** The UPDATE affects no row exactly when the candidate's row is gone
    or is no longer in [pending] or [failed]. *)
Lemma execLock_rows (id : string) (s : Store) :
  (execLock workerID (Format now2) id s).2 = 0 <->
  forall r, s !! id = Some r ->
    String.eqb (col_state r) StatePending
    || String.eqb (col_state r) StateFailed = false.
Proof.
  unfold execLock. destruct (s !! id) as [r|]; simpl.
  - destruct (String.eqb (col_state r) StatePending
              || String.eqb (col_state r) StateFailed) eqn:E; simpl.
    + split; [discriminate|]. intros H. specialize (H r eq_refl). congruence.
    + split; [|reflexivity]. now intros _ r' [= <-].
  - split; [|reflexivity]. intros _ r' [=].
Qed.

Lemma execLock_hit (id : string) (s : Store) (r : Row) :
  s !! id = Some r ->
  String.eqb (col_state r) StatePending
  || String.eqb (col_state r) StateFailed = true ->
  execLock workerID (Format now2) id s
  = (<[id := lock_row workerID (Format now2) r]> s, 1).
Proof. unfold execLock. now intros -> ->. Qed.

Lemma GetNextPendingJob_on_candidate (s_read s : Store) id row :
  queryNext (Format now1) s_read = Some (id, row) ->
  exists j0, scanJob (Some (id, row)) = Ok j0 /\ ID j0 = id /\
    GetNextPendingJob_on workerID now1 now2 s_read s
    = let '(s', rows) := execLock workerID (Format now2) id s in
      if rows =? 0 then (Ok None, s)
      else (Ok (Some (set_WorkerID workerID
                        (set_State StateProcessing j0))), s').
Proof.
  intros Hq. eexists. split; [reflexivity|]. split; [reflexivity|].
  unfold GetNextPendingJob_on. rewrite Hq. reflexivity.
Qed.

Lemma GetNextPendingJob_on_no_candidate (s_read s : Store) :
  queryNext (Format now1) s_read = None ->
  GetNextPendingJob_on workerID now1 now2 s_read s = (Ok None, s).
Proof.
  intros Hq. unfold GetNextPendingJob_on. rewrite Hq. reflexivity.
Qed.

End Claim.

(** ** Concurrent claims *)

Section Race.

(** The two statements of one call, run at tables [s_read] and [s], are
    [GetNextPendingJob_on]. *)
Lemma call_step_twice workerID now1 now2 (s_read s : Store) :
  let '(c1, _) := call_step workerID now1 Started s_read in
  call_step workerID now2 c1 s
  = (Returned (GetNextPendingJob_on workerID now1 now2 s_read s).1,
     (GetNextPendingJob_on workerID now1 now2 s_read s).2).
Proof.
  unfold call_step, GetNextPendingJob_on.
  destruct (scanJob (queryNext (Format now1) s_read)) as [j|e]; simpl.
  - destruct (execLock workerID (Format now2) (ID j) s) as [s' rows].
    now destruct (rows =? 0).
  - now destruct (String.eqb e ErrNoRows).
Qed.

(** A statement either leaves the table alone and returns no job, or
    it is the UPDATE that claims a row found in [pending] or [failed]. *)
Lemma call_step_cases workerID now c (s : Store) c' s' :
  call_step workerID now c s = (c', s') ->
  (s' = s /\ forall j, c' = Returned (Ok (Some j)) -> c = c')
  \/ (exists j0 r,
        c = Selected j0 /\ s !! ID j0 = Some r /\
        String.eqb (col_state r) StatePending
        || String.eqb (col_state r) StateFailed = true /\
        s' = <[ID j0 := lock_row workerID (Format now) r]> s /\
        c' = Returned (Ok (Some (set_WorkerID workerID
                                   (set_State StateProcessing j0))))).
Proof.
  destruct c as [|j0|r]; simpl.
  - destruct (scanJob _) as [j|e].
    + intros [= <- <-]. left. split; [reflexivity|]. discriminate.
    + destruct (String.eqb e ErrNoRows); intros [= <- <-]; left;
        (split; [reflexivity|]; discriminate).
  - unfold execLock. destruct (s !! ID j0) as [r|] eqn:Hr.
    + destruct (String.eqb (col_state r) StatePending
                || String.eqb (col_state r) StateFailed) eqn:Hg; simpl.
      * intros [= <- <-]. right. exists j0, r. auto.
      * intros [= <- <-]. left. split; [reflexivity|]. discriminate.
    + simpl. intros [= <- <-]. left. split; [reflexivity|]. discriminate.
  - intros [= <- <-]. left. auto.
Qed.

Lemma processing_not_guarded (r : Row) :
  col_state r = StateProcessing ->
  String.eqb (col_state r) StatePending
  || String.eqb (col_state r) StateFailed = false.
Proof. intros ->. reflexivity. Qed.

Lemma claims_inv_start workers (s : Store) : claims_inv (start workers s).
Proof.
  assert (forall i c, (start workers s).1 !! i = Some c -> c_call c = Started)
    as Hst.
  { unfold start. simpl. intros i c Hi.
    apply list_lookup_fmap_Some in Hi as (w & -> & _). reflexivity. }
  split.
  - intros i c j Hi Hc. rewrite (Hst _ _ Hi) in Hc. discriminate.
  - intros i i' c c' j j' Hi _ Hc. rewrite (Hst _ _ Hi) in Hc. discriminate.
Qed.

Lemma claims_inv_step i now sys : claims_inv sys -> claims_inv (sys_step i now sys).
Proof.
  destruct sys as [cs s]. intros [Hst Hdist]. unfold sys_step. simpl in *.
  destruct (cs !! i) as [ci|] eqn:Hi; [|split; assumption].
  destruct (call_step (c_worker ci) now (c_call ci) s) as [c' s'] eqn:Hstep.
  simpl.
  assert (i < length cs)%nat as Hlen by (eapply lookup_lt_Some; eauto).
  destruct (call_step_cases _ _ _ _ _ _ Hstep)
    as [[-> Hsame] | (j0 & r & Hsel & Hr & Hg & -> & ->)].
  - (* no row was claimed by this statement *)
    assert (forall k c j,
               <[i := mkCaller (c_worker ci) c']> cs !! k = Some c ->
               c_call c = Returned (Ok (Some j)) ->
               exists c0, cs !! k = Some c0 /\ c_worker c0 = c_worker c /\
                          c_call c0 = Returned (Ok (Some j))) as Hback.
    { intros k c j Hk Hc. destruct (decide (i = k)) as [<-|Hne].
      - rewrite list_lookup_insert_eq in Hk by exact Hlen.
        injection Hk as <-. simpl in Hc. subst c'.
        exists ci. rewrite <- (Hsame j eq_refl). auto.
      - rewrite list_lookup_insert_ne in Hk by exact Hne. eauto. }
    split.
    + intros k c j Hk Hc.
      destruct (Hback _ _ _ Hk Hc) as (c0 & Hk0 & Hw & Hc0).
      destruct (Hst _ _ _ Hk0 Hc0) as (H1 & H2 & H3).
      unfold stamped. rewrite <- Hw. auto.
    + intros k k' c c'' j j' Hk Hk' Hc Hc''.
      destruct (Hback _ _ _ Hk Hc) as (c0 & Hk0 & _ & Hc0).
      destruct (Hback _ _ _ Hk' Hc'') as (c0' & Hk0' & _ & Hc0').
      eauto.
  - (* this statement claimed the row of [j0] *)
    assert (forall k c j, k <> i -> cs !! k = Some c ->
               c_call c = Returned (Ok (Some j)) -> ID j <> ID j0) as Hfresh.
    { intros k c j _ Hk Hc Heq.
      destruct (Hst _ _ _ Hk Hc) as (_ & _ & r' & Hr' & Hproc & _).
      rewrite Heq, Hr in Hr'. injection Hr' as <-.
      rewrite (processing_not_guarded _ Hproc) in Hg. discriminate. }
    split; simpl.
    + intros k c j Hk Hc. destruct (decide (i = k)) as [<-|Hne].
      * rewrite list_lookup_insert_eq in Hk by exact Hlen.
        injection Hk as <-. simpl in Hc. injection Hc as <-.
        unfold stamped. simpl. repeat split.
        exists (lock_row (c_worker ci) (Format now) r).
        rewrite lookup_insert_eq. auto.
      * rewrite list_lookup_insert_ne in Hk by exact Hne.
        destruct (Hst _ _ _ Hk Hc) as (H1 & H2 & r' & Hr' & H3 & H4).
        unfold stamped. repeat split; auto.
        exists r'. rewrite lookup_insert_ne; auto.
        intros Heq. eapply (Hfresh k c j); eauto.
    + intros k k' c c'' j j' Hk Hk' Hc Hc'' Hid.
      destruct (decide (i = k)) as [<-|Hne];
        destruct (decide (i = k')) as [<-|Hne']; auto.
      * rewrite list_lookup_insert_eq in Hk by exact Hlen.
        rewrite list_lookup_insert_ne in Hk' by exact Hne'.
        injection Hk as <-. simpl in Hc. injection Hc as <-. simpl in Hid.
        exfalso. eapply (Hfresh k' c'' j'); eauto.
      * rewrite list_lookup_insert_ne in Hk by exact Hne.
        rewrite list_lookup_insert_eq in Hk' by exact Hlen.
        injection Hk' as <-. simpl in Hc''. injection Hc'' as <-.
        simpl in Hid. exfalso. eapply (Hfresh k c j); eauto.
      * rewrite list_lookup_insert_ne in Hk by exact Hne.
        rewrite list_lookup_insert_ne in Hk' by exact Hne'.
        eauto.
Qed.

Lemma claims_inv_run sched sys : claims_inv sys -> claims_inv (run sched sys).
Proof.
  revert sys. induction sched as [|[i now] sched IH]; intros sys H.
  - exact H.
  - simpl. apply IH. now apply claims_inv_step.
Qed.

End Race.

(** C2. However the statements of any number of concurrent
    [GetNextPendingJob] calls interleave on the shared table, no two calls
    return the same job id, and every job returned is in [processing]
    under its caller's worker id, in the returned value and in the table.
    The guard behind it: on any table, a row in [processing] is not a
    candidate of the SELECT, and the UPDATE on its id changes no row. *)
Theorem concurrent_claims_distinct
    (workers : list string) (s0 : Store) (sched : list (nat * Time)) :
  let sys := run sched (start workers s0) in
  (forall i i' c c' j j',
      sys.1 !! i = Some c -> sys.1 !! i' = Some c' ->
      c_call c = Returned (Ok (Some j)) ->
      c_call c' = Returned (Ok (Some j')) ->
      ID j = ID j' -> i = i')
  /\ (forall i c j,
        sys.1 !! i = Some c -> c_call c = Returned (Ok (Some j)) ->
        State j = StateProcessing /\ WorkerID j = c_worker c /\
        exists r, sys.2 !! ID j = Some r /\ col_state r = StateProcessing /\
                  col_worker_id r = Some (c_worker c))
  /\ (forall (s : Store) id r workerID now now',
        s !! id = Some r -> col_state r = StateProcessing ->
        runnable now r = false /\
        (forall r', queryNext now s <> Some (id, r')) /\
        execLock workerID now' id s = (s, 0)).
Proof.
  intros sys.
  destruct (claims_inv_run sched _ (claims_inv_start workers s0)) as [H1 H2].
  split; [exact H2 |]. split; [exact H1 |].
  intros s id r workerID now now' Hr Hst.
  assert (runnable now r = false) as Hrun.
  { unfold runnable. rewrite Hst. reflexivity. }
  split; [exact Hrun |]. split.
  - intros r' Hq. destruct (queryNext_Some _ _ _ _ Hq) as (Hr' & Hrun' & _).
    rewrite Hr in Hr'. injection Hr' as <-. congruence.
  - unfold execLock. rewrite Hr, Hst. reflexivity.
Qed.

Lemma concurrent_claims_distinct_witness :
  let sys := run [(0%nat, after_t0 1); (1%nat, after_t0 1);
                  (0%nat, after_t0 2); (1%nat, after_t0 2)]
                 (start ["w-aaaa"; "w-bbbb"] (SaveJob pending_late ∅)) in
  exists r, sys.2 !! "job-0" = Some r /\ col_state r = StateProcessing /\
            col_worker_id r = Some "w-aaaa".
Proof.
  intros sys.
  destruct (concurrent_claims_distinct ["w-aaaa"; "w-bbbb"]
              (SaveJob pending_late ∅)
              [(0%nat, after_t0 1); (1%nat, after_t0 1);
               (0%nat, after_t0 2); (1%nat, after_t0 2)]) as (_ & H & _).
  destruct (H 0%nat
              (mkCaller "w-aaaa"
                 (Returned (Ok (Some (set_WorkerID "w-aaaa"
                                        (set_State StateProcessing
                                           (canonical_job pending_late)))))))
              (set_WorkerID "w-aaaa"
                 (set_State StateProcessing (canonical_job pending_late))))
    as (_ & _ & r & Hr & Hst & Hw).
  - vm_compute. reflexivity.
  - reflexivity.
  - exists r. split; [exact Hr|]. split; [exact Hst | exact Hw].
Defined.


(** ** The RFC3339 layout on sample instants *)

Example Format_epoch : Format (mkTime 0 0) = "1970-01-01T00:00:00Z".
Proof. reflexivity. Qed.

Example Format_zoned :
  Format (mkTime (1700000000 * Second + 123456789) 19800)
  = "2023-11-15T03:43:20+05:30".
Proof. vm_compute. reflexivity. Qed.

Example Format_west :
  Format (mkTime (951782400 * Second) (-18000)) = "2000-02-28T19:00:00-05:00".
Proof. vm_compute. reflexivity. Qed.

Example Format_zero : Format zeroTime = "0001-01-01T00:00:00Z".
Proof. vm_compute. reflexivity. Qed.

Example Parse_zoned :
  Parse "2023-11-15T03:43:20+05:30" = mkTime (1700000000 * Second) 19800.
Proof. vm_compute. reflexivity. Qed.

Example Parse_leap_day :
  Parse "2024-02-29T23:59:59Z" = mkTime (1709251199 * Second) 0.
Proof. vm_compute. reflexivity. Qed.

Example Parse_garbage : Parse "2023-02-29T00:00:00Z" = zeroTime.
Proof. vm_compute. reflexivity. Qed.

Example canonical_drops_subsecond :
  canonical (mkTime (1700000000 * Second + 123456789) 19800)
  = mkTime (1700000000 * Second) 19800.
Proof. vm_compute. reflexivity. Qed.


(** ** The transitions of a job *)

Section Transitions.

Variables (now : Time) (j : Job).

Lemma MarkAsProcessing_fields (workerID : string) :
  let j' := MarkAsProcessing workerID now j in
  State j' = StateProcessing /\ WorkerID j' = workerID /\ UpdatedAt j' = now /\
  NextRetryAt j' = NextRetryAt j /\
  ID j' = ID j /\ Command j' = Command j /\ Attempts j' = Attempts j /\
  MaxRetries j' = MaxRetries j /\ CreatedAt j' = CreatedAt j /\
  Error j' = Error j /\ Output j' = Output j.
Proof. repeat split. Qed.

Lemma MarkAsCompleted_fields (output : string) :
  let j' := MarkAsCompleted output now j in
  State j' = StateCompleted /\ Output j' = output /\ UpdatedAt j' = now /\
  Error j' = Error j /\ WorkerID j' = WorkerID j /\
  NextRetryAt j' = NextRetryAt j /\
  ID j' = ID j /\ Command j' = Command j /\ Attempts j' = Attempts j /\
  MaxRetries j' = MaxRetries j /\ CreatedAt j' = CreatedAt j.
Proof. repeat split. Qed.

Lemma MarkAsFailed_fields (errMsg : string) (next : option Time) :
  let j' := MarkAsFailed errMsg next now j in
  State j' = StateFailed /\ Error j' = errMsg /\
  Attempts j' = int_wrap (Attempts j + 1) /\ NextRetryAt j' = next /\
  UpdatedAt j' = now /\ WorkerID j' = "" /\
  ID j' = ID j /\ Command j' = Command j /\ MaxRetries j' = MaxRetries j /\
  CreatedAt j' = CreatedAt j /\ Output j' = Output j.
Proof. repeat split. Qed.

Lemma MarkAsDead_fields (errMsg : string) :
  let j' := MarkAsDead errMsg now j in
  State j' = StateDead /\ Error j' = errMsg /\ Attempts j' = Attempts j /\
  UpdatedAt j' = now /\ WorkerID j' = "" /\
  NextRetryAt j' = NextRetryAt j /\
  ID j' = ID j /\ Command j' = Command j /\ MaxRetries j' = MaxRetries j /\
  CreatedAt j' = CreatedAt j /\ Output j' = Output j.
Proof. repeat split. Qed.

End Transitions.

Lemma int_wrap_id (z : Z) : is_int z -> int_wrap z = z.
Proof.
  unfold is_int, int_min, int_max, int_wrap. intros H.
  rewrite Z.mod_small; lia.
Qed.

(** ** Settlement *)

Section Settlement.

Variables (cfg : Config) (clk : Clock).

(** [handleFailure] settles with [MarkAsFailed] exactly when [CanRetry]
    holds before the increment, and with [MarkAsDead] otherwise. *)
Lemma handleFailure_routes execErr output (j : Job) (s : Store) :
  (handleFailure cfg clk execErr output j s).1
  = settled_failure cfg clk execErr output j.
Proof. reflexivity. Qed.

Lemma handleFailure_saves execErr output (j : Job) (s : Store) :
  (handleFailure cfg clk execErr output j s).2
  = SaveJob (handleFailure cfg clk execErr output j s).1 s.
Proof. reflexivity. Qed.

Lemma handleSuccess_saves output (j : Job) (s : Store) :
  handleSuccess clk output j s
  = (MarkAsCompleted output (t_settle clk) j,
     SaveJob (MarkAsCompleted output (t_settle clk) j) s).
Proof. reflexivity. Qed.

End Settlement.

(** ** One tick of a worker *)

Section OneTick.

Variables (cfg : Config).

Lemma SaveJob_existing (j : Job) (s : Store) (old : Row) :
  s !! ID j = Some old ->
  SaveJob j s = <[ID j := on_conflict_update old (row_of_job j)]> s.
Proof. unfold SaveJob. now intros ->. Qed.

Lemma SaveJob_fresh (j : Job) (s : Store) :
  s !! ID j = None -> SaveJob j s = <[ID j := row_of_job j]> s.
Proof. unfold SaveJob. now intros ->. Qed.

(** A tick whose SELECT finds the row [r] of job [id]: the claim, the
    save of [MarkAsProcessing] and the settlement rewrite that row only. *)
Lemma tick_claims (t : Tick) (s : Store) id r :
  queryNext (Format (t_select (k_clock t))) s = Some (id, r) ->
  exists j0,
    scanJob (Some (id, r)) = Ok j0 /\
    tick cfg t s
    = let j1 := MarkAsProcessing (k_worker t) (t_processing (k_clock t))
                  (set_WorkerID (k_worker t) (set_State StateProcessing j0)) in
      let j2 := match runErr (k_run t) with
                | Some e => settled_failure cfg (k_clock t) e
                              (output_of (k_run t)) j1
                | None => MarkAsCompleted (output_of (k_run t))
                            (t_settle (k_clock t)) j1
                end in
      <[id := on_conflict_update r (row_of_job j2)]> s.
Proof.
  intros Hq. destruct (queryNext_Some _ _ _ _ Hq) as (Hr & Hrun & _).
  eexists. split; [reflexivity|].
  unfold tick, processNext, GetNextPendingJob, GetNextPendingJob_on.
  rewrite Hq. cbn [scanJob ID].
  rewrite (execLock_hit _ _ _ _ _ Hr (runnable_guard _ _ Hrun)).
  cbn [Z.eqb]. cbv beta iota.
  unfold executeJob. fold (output_of (k_run t)).
  set (j1 := MarkAsProcessing _ _ _).
  assert (ID j1 = id) as Hid1 by reflexivity.
  rewrite (SaveJob_existing j1 _ (lock_row (k_worker t)
             (Format (t_lock (k_clock t))) r))
    by (rewrite Hid1; apply lookup_insert_eq).
  rewrite Hid1, insert_insert_eq.
  destruct (runErr (k_run t)) as [e|].
  - rewrite handleFailure_saves.
    rewrite handleFailure_routes.
    set (j2 := settled_failure _ _ _ _ _).
    assert (ID j2 = id) as Hid2.
    { unfold j2, settled_failure. now destruct (CanRetry j1). }
    cbn [snd].
    rewrite (SaveJob_existing j2 _ (on_conflict_update
               (lock_row (k_worker t) (Format (t_lock (k_clock t))) r)
               (row_of_job j1)))
      by (rewrite Hid2; apply lookup_insert_eq).
    rewrite Hid2, insert_insert_eq. reflexivity.
  - rewrite handleSuccess_saves. cbn [snd].
    set (j2 := MarkAsCompleted _ _ _).
    assert (ID j2 = id) as Hid2 by reflexivity.
    rewrite (SaveJob_existing j2 _ (on_conflict_update
               (lock_row (k_worker t) (Format (t_lock (k_clock t))) r)
               (row_of_job j1)))
      by (rewrite Hid2; apply lookup_insert_eq).
    rewrite Hid2, insert_insert_eq. reflexivity.
Qed.

End OneTick.

(** ** A job that fails on every execution *)

Section FailingJob.

Variables (cfg : Config).

(** A tick that claims the row [r] of [id] and whose command fails. *)
Lemma tick_failure (t : Tick) (s : Store) id r e :
  queryNext (Format (t_select (k_clock t))) s = Some (id, r) ->
  runErr (k_run t) = Some e ->
  exists r1,
    tick cfg t s = <[id := r1]> s /\
    col_max_retries r1 = col_max_retries r /\
    col_error r1 = Some (errMsg_of e (output_of (k_run t))) /\
    col_worker_id r1 = Some "" /\
    if col_attempts r <? col_max_retries r
    then col_state r1 = StateFailed /\
         col_attempts r1 = int_wrap (col_attempts r + 1) /\
         col_next_retry_at r1
         = Some (Format (NextRetryTime (t_retry (k_clock t)) (col_attempts r)
                           (cfg_BackoffBase cfg)))
    else col_state r1 = StateDead /\ col_attempts r1 = col_attempts r.
Proof.
  intros Hq He.
  destruct (tick_claims cfg t s id r Hq) as (j0 & [= <-] & ->).
  rewrite He. eexists. split; [reflexivity|].
  unfold settled_failure, CanRetry. cbn [MarkAsProcessing set_UpdatedAt
    set_WorkerID set_State Attempts MaxRetries job_of_row].
  destruct (col_attempts r <? col_max_retries r); repeat split.
Qed.

(** The state and the attempt count after [n] failing ticks, for a row
    that has failed [a] times and tolerates [R] failures. *)
Lemma failing_ticks (id : string) (R : Z) (ticks : list Tick) :
  R <= int_max ->
  forall (s : Store) (r : Row),
    s !! id = Some r -> col_max_retries r = R -> 0 <= col_attempts r <= R ->
    ticks <> [] ->
    Z.of_nat (length ticks) <= R + 1 - col_attempts r ->
    each_tick_fails cfg id ticks s = true ->
    exists r',
      run_ticks cfg ticks s !! id = Some r' /\ col_max_retries r' = R /\
      if Z.of_nat (length ticks) =? R + 1 - col_attempts r
      then col_state r' = StateDead /\ col_attempts r' = R
      else col_state r' = StateFailed /\
           col_attempts r' = col_attempts r + Z.of_nat (length ticks).
Proof.
  intros HR. induction ticks as [|t ticks IH]; intros s r Hr Hmax Ha Hne Hlen Hall;
    [congruence|].
  cbn [each_tick_fails] in Hall.
  apply andb_prop in Hall as [Hall Hrest]. apply andb_prop in Hall as [Hsel Hfail].
  destruct (queryNext (Format (t_select (k_clock t))) s) as [[i r0]|] eqn:Hq;
    [|discriminate].
  apply String.eqb_eq in Hsel. subst i.
  destruct (queryNext_Some _ _ _ _ Hq) as (Hr0 & _ & _).
  rewrite Hr in Hr0. injection Hr0 as <-.
  destruct (runErr (k_run t)) as [e|] eqn:He; [|discriminate].
  destruct (tick_failure t s id r e Hq He)
    as (r1 & Htick & Hmax1 & _ & _ & Hcase).
  cbn [run_ticks fold_left]. fold (run_ticks cfg ticks (tick cfg t s)).
  cbn [length] in *. rewrite Hmax in Hcase.
  destruct (col_attempts r <? R) eqn:Hlt.
  - apply Z.ltb_lt in Hlt. destruct Hcase as (Hst1 & Hat1 & _).
    rewrite int_wrap_id in Hat1
      by (unfold is_int, int_min, int_max in *; lia).
    destruct ticks as [|t' ticks'].
    + exists r1. cbn [run_ticks fold_left]. rewrite Htick, lookup_insert_eq.
      split; [reflexivity|]. split; [congruence|].
      cbn [length].
      destruct (Z.of_nat 1 =? R + 1 - col_attempts r) eqn:E.
      * apply Z.eqb_eq in E. lia.
      * split; [assumption|]. lia.
    + destruct (IH (tick cfg t s) r1) as (r' & Hr' & Hmax' & Hcase');
        try congruence.
      * rewrite Htick. apply lookup_insert_eq.
      * lia.
      * cbn [length] in *. lia.
      * exists r'. split; [assumption|]. split; [assumption|].
        rewrite Hat1 in Hcase'.
        replace (Z.of_nat (S (length (t' :: ticks'))) =? R + 1 - col_attempts r)
          with (Z.of_nat (length (t' :: ticks')) =? R + 1 - (col_attempts r + 1)).
        -- destruct (_ =? _); [assumption|].
           destruct Hcase' as [? ->]. split; [assumption|]. lia.
        -- destruct (Z.eqb_spec (Z.of_nat (length (t' :: ticks')))
                       (R + 1 - (col_attempts r + 1)));
           destruct (Z.eqb_spec (Z.of_nat (S (length (t' :: ticks'))))
                       (R + 1 - col_attempts r)); try reflexivity; lia.
  - apply Z.ltb_ge in Hlt. destruct Hcase as (Hst1 & Hat1).
    assert (ticks = []) as -> by (destruct ticks; [reflexivity|cbn [length] in *; lia]).
    exists r1. cbn [run_ticks fold_left]. rewrite Htick, lookup_insert_eq.
    split; [reflexivity|]. split; [congruence|].
    cbn [length].
    destruct (Z.eqb_spec (Z.of_nat 1) (R + 1 - col_attempts r)).
    + split; [assumption|]. lia.
    + lia.
Qed.

End FailingJob.

(** ** Enqueue *)

Section Enqueue.

Variables (cfg : Config) (uuid : string) (now : Time).

Lemma SaveJob_lookup (j : Job) (s : Store) :
  SaveJob j s !! ID j
  = Some (on_conflict_update (default (row_of_job j) (s !! ID j))
            (row_of_job j)).
Proof.
  unfold SaveJob. destruct (s !! ID j) as [old|]; simpl;
    now rewrite lookup_insert_eq.
Qed.

Lemma SaveJob_lookup_ne (j : Job) (s : Store) (i : string) :
  i <> ID j -> SaveJob j s !! i = s !! i.
Proof.
  intros Hne. unfold SaveJob.
  destruct (s !! ID j); now rewrite lookup_insert_ne.
Qed.

(** [FromJSON] never leaves [MaxRetries] at zero. *)
Lemma FromJSON_MaxRetries (data : option Payload) (j : Job) :
  FromJSON uuid now data = Ok j -> MaxRetries j <> 0.
Proof.
  unfold FromJSON. destruct data as [p|]; [|discriminate].
  intros [= <-].
  assert (forall b (x y : Job),
             MaxRetries x <> 0 -> MaxRetries y <> 0 ->
             MaxRetries (if b : bool then x else y) <> 0) as Hif
    by (now intros []).
  apply Hif; [cbn [set_UpdatedAt MaxRetries]|];
    (apply Hif; [cbn [set_CreatedAt MaxRetries]|]);
    (destruct (MaxRetries _ =? 0) eqn:E;
     [discriminate | now apply Z.eqb_neq in E]).
Qed.

(** What [FromJSON] makes of a client payload. *)
Lemma FromJSON_client oid command mr :
  FromJSON uuid now (Some (client_payload oid command mr))
  = Ok (mkJob (if String.eqb (default "" oid) "" then uuid else default "" oid)
              command StatePending 0
              (if default 0 mr =? 0 then 3 else default 0 mr)
              (UTC now) (UTC now) None "" "" "").
Proof.
  unfold FromJSON, client_payload, Unmarshal.
  cbn [p_id p_command p_state p_attempts p_max_retries p_created_at
       p_updated_at p_next_retry_at p_worker_id p_error p_output].
  cbn [default ID].
  destruct (String.eqb (default "" oid) "") eqn:Eid;
    destruct (default 0 mr =? 0) eqn:Emr;
    cbn; rewrite ?Emr; reflexivity.
Qed.

(** What [enqueueCmd] saves for a client payload. *)
Lemma enqueueCmd_client oid command mr (s : Store) (j0 : Job) (s0 : Store) :
  enqueueCmd cfg uuid now (Some (client_payload oid command mr)) s
  = Ok (j0, s0) ->
  command <> "" /\ s0 = SaveJob j0 s /\
  j0 = mkJob (if String.eqb (default "" oid) "" then uuid else default "" oid)
             command StatePending 0
             (if default 0 mr =? 0 then 3 else default 0 mr)
             (UTC now) (UTC now) None "" "" "".
Proof.
  unfold enqueueCmd. rewrite FromJSON_client. unfold Validate.
  cbn [Command MaxRetries].
  destruct (String.eqb command "") eqn:Ecmd; [discriminate|].
  destruct (_ <? 0); [discriminate|].
  assert (((if default 0 mr =? 0 then 3 else default 0 mr) =? 0) = false) as ->.
  { destruct (default 0 mr =? 0) eqn:E; [reflexivity|assumption]. }
  intros [= <- <-]. split; [|split; reflexivity].
  intros ->. discriminate.
Qed.

End Enqueue.

(** C3 (as the code has it).  [MarkAsDead] sets the state to [dead],
    records the error and clears the worker id, and leaves [Attempts] as
    it is.  [handleFailure] retries exactly when [CanRetry] holds before
    the increment, and moves the job to [dead] otherwise.  Hence a job
    enqueued with [max_retries = R] whose every execution fails is in
    [failed] with [attempts = k] after its [k]-th execution, for
    [1 <= k <= R], and in [dead] with [attempts = R] after its
    [R+1]-th. *)
Theorem failing_job_dead_with_attempts_R (cfg : Config) :
  (forall errMsg now j,
      let j' := MarkAsDead errMsg now j in
      State j' = StateDead /\ Error j' = errMsg /\ WorkerID j' = "" /\
      Attempts j' = Attempts j)
  /\ (forall clk execErr output j s,
        (handleFailure cfg clk execErr output j s).1
        = if CanRetry j
          then MarkAsFailed (errMsg_of execErr output)
                 (GetNextRetryAt (t_retry clk) (Attempts j)
                    (cfg_BackoffBase cfg))
                 (t_settle clk) j
          else MarkAsDead (errMsg_of execErr output) (t_settle clk) j)
  /\ (forall uuid now oid command R (s : Store) j0 s0 ticks,
        1 <= R <= int_max ->
        enqueueCmd cfg uuid now (Some (client_payload oid command (Some R))) s
        = Ok (j0, s0) ->
        each_tick_fails cfg (ID j0) ticks s0 = true ->
        1 <= Z.of_nat (length ticks) <= R + 1 ->
        exists r,
          run_ticks cfg ticks s0 !! ID j0 = Some r /\ col_max_retries r = R /\
          if Z.of_nat (length ticks) =? R + 1
          then col_state r = StateDead /\ col_attempts r = R
          else col_state r = StateFailed /\
               col_attempts r = Z.of_nat (length ticks)).
Proof.
  split; [|split].
  - intros. repeat split.
  - reflexivity.
  - intros uuid now oid command R s j0 s0 ticks HR Henq Hall Hlen.
    destruct (enqueueCmd_client _ _ _ _ _ _ _ _ _ Henq) as (_ & -> & Hj0).
    assert (MaxRetries j0 = R /\ Attempts j0 = 0 /\ State j0 = StatePending)
      as (Hmax & Hatt & Hst).
    { rewrite Hj0. cbn. destruct (Z.eqb_spec R 0); [lia|]. auto. }
    pose proof (SaveJob_lookup j0 s) as Hrow.
    set (r0 := on_conflict_update _ _) in Hrow.
    destruct (failing_ticks cfg (ID j0) R ticks ltac:(lia) (SaveJob j0 s) r0)
      as (r & Hr & HmaxR & Hcase); auto.
    + cbn. rewrite Hatt. lia.
    + intros ->. cbn in Hlen. lia.
    + cbn [r0 on_conflict_update col_attempts row_of_job]. rewrite Hatt. lia.
    + exists r. split; [assumption|]. split; [assumption|].
      cbn [r0 on_conflict_update col_attempts row_of_job] in Hcase.
      rewrite Hatt in Hcase.
      replace (R + 1 - 0) with (R + 1) in Hcase by lia.
      destruct (Z.of_nat (length ticks) =? R + 1); [assumption|].
      destruct Hcase as [? ->]. split; [assumption|lia].
Qed.

Lemma failing_job_dead_with_attempts_R_witness :
  exists r,
    run_ticks sample_cfg three_failing_ticks
      (SaveJob (mkJob "job-1" "exit 1" StatePending 0 2 (UTC t0) (UTC t0)
                  None "" "" "") ∅) !! "job-1" = Some r /\
    col_max_retries r = 2 /\ col_state r = StateDead /\ col_attempts r = 2.
Proof.
  destruct (failing_job_dead_with_attempts_R sample_cfg) as (_ & _ & H).
  destruct (H "uuid-0" t0 (Some "job-1") "exit 1" 2 ∅
              (mkJob "job-1" "exit 1" StatePending 0 2 (UTC t0) (UTC t0)
                 None "" "" "")
              (SaveJob (mkJob "job-1" "exit 1" StatePending 0 2 (UTC t0)
                          (UTC t0) None "" "" "") ∅)
              three_failing_ticks)
    as (r & Hr & Hmax & Hcase).
  - unfold int_max. lia.
  - reflexivity.
  - vm_compute. reflexivity.
  - simpl. lia.
  - exists r. simpl in Hcase. destruct Hcase. auto.
Defined.

(** C3, as stated, fails: with [max_retries = 2] the job that fails on
    each of its three executions ends in [dead] with [attempts = 2], not
    3, and [MarkAsDead] does not increment. *)
Lemma failing_job_attempts_counterexample :
  let j0 := mkJob "job-1" "exit 1" StatePending 0 2 (UTC t0) (UTC t0)
              None "" "" "" in
  enqueueCmd sample_cfg "uuid-0" t0
    (Some (client_payload (Some "job-1") "exit 1" (Some 2))) ∅
  = Ok (j0, SaveJob j0 ∅)
  /\ each_tick_fails sample_cfg "job-1" three_failing_ticks (SaveJob j0 ∅) = true
  /\ (exists r,
        run_ticks sample_cfg three_failing_ticks (SaveJob j0 ∅) !! "job-1"
        = Some r /\
        col_state r = StateDead /\ col_attempts r = 2 /\
        col_attempts r <> col_max_retries r + 1)
  /\ Attempts (MarkAsDead "exit status 1" (after_t0 6)
                 (set_Attempts 2 (set_State StateProcessing j0)))
     <> 2 + 1.
Proof.
  split; [reflexivity|]. split; [vm_compute; reflexivity|]. split.
  - eexists. split; [vm_compute; reflexivity|].
    split; [reflexivity|]. split; [reflexivity|]. discriminate.
  - discriminate.
Qed.

(** ** Claiming and [next_retry_at] *)

Lemma GetNextPendingJob_returns workerID now1 now2 (s : Store) j s' :
  GetNextPendingJob workerID now1 now2 s = (Ok (Some j), s') ->
  exists r j0,
    queryNext (Format now1) s = Some (ID j, r) /\
    scanJob (Some (ID j, r)) = Ok j0 /\
    j = set_WorkerID workerID (set_State StateProcessing j0) /\
    s' = <[ID j := lock_row workerID (Format now2) r]> s.
Proof.
  unfold GetNextPendingJob.
  destruct (queryNext (Format now1) s) as [[id r]|] eqn:Hq.
  - destruct (queryNext_Some _ _ _ _ Hq) as (Hr & Hrun & _).
    destruct (GetNextPendingJob_on_candidate workerID now1 now2 s s id r Hq)
      as (j0 & Hscan & Hid & ->).
    rewrite (execLock_hit _ _ _ _ _ Hr (runnable_guard _ _ Hrun)).
    cbn [Z.eqb]. intros [= <- <-]. cbn [set_WorkerID set_State ID].
    rewrite Hid. exists r, j0. auto.
  - rewrite (GetNextPendingJob_on_no_candidate _ _ _ _ _ Hq). discriminate.
Qed.

(** ** Settlement of a success *)

(** C7 (as the code has it).  [MarkAsCompleted] sets the state to
    [completed] and the output, and leaves the error as it was; so does
    the row that [handleSuccess] saves.  A completed job has an empty
    error exactly when it had one before. *)
Theorem completed_keeps_error
    (clk : Clock) (output : string) (j : Job) (s : Store) :
  let j' := MarkAsCompleted output (t_settle clk) j in
  State j' = StateCompleted /\ Output j' = output /\
  UpdatedAt j' = t_settle clk /\ Error j' = Error j /\
  (Error j' = "" <-> Error j = "") /\
  handleSuccess clk output j s = (j', SaveJob j' s) /\
  exists r, (handleSuccess clk output j s).2 !! ID j = Some r /\
            col_state r = StateCompleted /\ col_output r = Some output /\
            col_error r = Some (Error j).
Proof.
  cbn zeta. repeat split; auto.
  eexists. split.
  - cbn [handleSuccess snd].
    apply (SaveJob_lookup (MarkAsCompleted output (t_settle clk) j) s).
  - repeat split.
Qed.

(** C7, as stated, fails: the retry of a job that failed once succeeds,
    and the completed job still carries the worker id and the error. *)
Lemma completed_keeps_error_counterexample :
  let clk := k_clock (tick_at "w-aaaa" 4 passing_run) in
  let '(j', s') := handleSuccess clk "hi" retrying (SaveJob retrying ∅) in
  State retrying = StateProcessing /\
  State j' = StateCompleted /\ Output j' = "hi" /\
  WorkerID j' <> "" /\ Error j' <> "" /\
  exists r, s' !! "job-1" = Some r /\ col_state r = StateCompleted /\
            col_worker_id r = Some "w-aaaa" /\
            col_error r = Some "exit status 1".
Proof.
  vm_compute. repeat split; try discriminate.
  eexists. repeat split.
Qed.

(** ** Backoff *)

Section Backoff.

Lemma effective_base_ge_1 (base : Q) : (1 <= effective_base base)%Q.
Proof.
  unfold effective_base.
  destruct (Qle_bool 1 base) eqn:E; simpl.
  - now apply Qle_bool_iff.
  - discriminate.
Qed.

Lemma clamped_attempts_nonneg (attempts : Z) : 0 <= clamped_attempts attempts.
Proof. unfold clamped_attempts. destruct (Z.ltb_spec attempts 0); lia. Qed.

Lemma capped_delay_bounds (attempts : Z) (base : Q) :
  (1 <= capped_delay attempts base)%Q
  /\ (capped_delay attempts base <= maxDelaySeconds)%Q.
Proof.
  unfold capped_delay.
  pose proof (Qpower_1_le _ _ (effective_base_ge_1 base)
                (clamped_attempts_nonneg attempts)) as Hq.
  destruct (Qle_bool _ maxDelaySeconds) eqn:E; simpl.
  - split; [assumption|]. now apply Qle_bool_iff.
  - split; [discriminate|apply Qle_refl].
Qed.

Lemma float_to_int_floor (q : Q) : (0 <= q)%Q -> float_to_int q = Qfloor q.
Proof.
  destruct q as [n d]. unfold float_to_int, Qfloor, Qle. simpl.
  intros H. apply Z.quot_div_nonneg; lia.
Qed.

(** What [CalculateBackoff] returns: the whole seconds of
    [min(base^attempts, 3600)], the fraction of a second dropped. *)
Lemma CalculateBackoff_floor (attempts : Z) (base : Q) :
  CalculateBackoff attempts base
  = Qfloor (capped_delay attempts base) * Second
  /\ 1 <= Qfloor (capped_delay attempts base) <= 3600.
Proof.
  destruct (capped_delay_bounds attempts base) as [Hlo Hhi].
  assert (1 <= Qfloor (capped_delay attempts base) <= 3600) as Hb.
  { split.
    - apply Qfloor_resp_le in Hlo. exact Hlo.
    - apply Qfloor_resp_le in Hhi. unfold maxDelaySeconds in Hhi.
      now rewrite Qfloor_Z in Hhi. }
  split; [|exact Hb].
  unfold CalculateBackoff.
  fold (clamped_attempts attempts). fold (effective_base base).
  fold (capped_delay attempts base).
  rewrite float_to_int_floor by (eapply Qle_trans; [|exact Hlo]; discriminate).
  apply int_wrap_id. unfold is_int, int_min, int_max, Second. lia.
Qed.

(** For a whole base the delay has no fraction: [min(b^n, 3600)] seconds. *)
Lemma CalculateBackoff_integral (n b : Z) :
  0 <= n -> 1 <= b ->
  CalculateBackoff n (inject_Z b) = Z.min (b ^ n) 3600 * Second.
Proof.
  intros Hn Hb.
  destruct (CalculateBackoff_floor n (inject_Z b)) as [-> _]. f_equal.
  unfold capped_delay, clamped_attempts, effective_base.
  destruct (Z.ltb_spec n 0) as [|_]; [lia|].
  assert (Qle_bool 1 (inject_Z b) = true) as ->.
  { apply Qle_bool_iff. change (inject_Z 1 <= inject_Z b)%Q.
    rewrite <- Zle_Qle. exact Hb. }
  simpl negb. cbv iota.
  assert (inject_Z b ^ n == inject_Z (b ^ n))%Q as Hpow
    by (symmetry; now apply Zpower_Qpower).
  destruct (Qle_bool (inject_Z b ^ n) maxDelaySeconds) eqn:E; cbn [negb].
  - rewrite (Qfloor_comp _ _ Hpow), Qfloor_Z.
    apply Qle_bool_iff in E. rewrite Hpow in E.
    unfold maxDelaySeconds in E. rewrite <- Zle_Qle in E. lia.
  - unfold maxDelaySeconds. rewrite Qfloor_Z.
    assert (~ (inject_Z b ^ n <= maxDelaySeconds)%Q) as Hgt.
    { intros H. apply Qle_bool_iff in H. congruence. }
    rewrite Hpow in Hgt. unfold maxDelaySeconds in Hgt.
    rewrite <- Zle_Qle in Hgt. lia.
Qed.

End Backoff.

(** C6, at base 1.5 and one attempt: [min(1.5^1, 3600)] is 1.5 seconds,
    and [CalculateBackoff] returns one second, so [NextRetryTime] is one
    second after now. *)
Theorem CalculateBackoff_drops_fraction :
  (capped_delay 1 (3 # 2) == 3 # 2)%Q
  /\ CalculateBackoff 1 (3 # 2) = 1 * Second
  /\ CalculateBackoff 1 (3 # 2) <> 1500000000
  /\ NextRetryTime t0 1 (3 # 2) = after_t0 1.
Proof.
  split; [reflexivity|]. split; [reflexivity|]. split; [discriminate|].
  reflexivity.
Qed.

(** ** Defaults at enqueue *)

(** Whatever the configuration says, a payload without [max_retries], or
    with zero, is saved with [max_retries = 3]; a payload without [id],
    or with an empty one, gets the generated identifier. *)
Lemma enqueueCmd_default_max_retries
    (cfg : Config) uuid now oid command mr (s : Store) j0 s0 :
  enqueueCmd cfg uuid now (Some (client_payload oid command mr)) s
  = Ok (j0, s0) ->
  (default 0 mr = 0 -> MaxRetries j0 = 3 /\
     exists r, s0 !! ID j0 = Some r /\ col_max_retries r = 3)
  /\ (default "" oid = "" -> ID j0 = uuid).
Proof.
  intros Henq.
  destruct (enqueueCmd_client _ _ _ _ _ _ _ _ _ Henq) as (_ & -> & ->).
  split.
  - intros ->. cbn. split; [reflexivity|].
    eexists. split; [apply (SaveJob_lookup (mkJob _ _ _ _ _ _ _ _ _ _ _) s)|].
    reflexivity.
  - intros ->. reflexivity.
Qed.

(** C8, with the configured default at 5: the job enqueued by the payload
    [{"command":"echo hi"}] is saved with [max_retries = 3], not 5; its
    missing id is the generated one. *)
Theorem enqueue_ignores_configured_default :
  exists j s,
    enqueueCmd cfg_five "uuid-0" t0
      (Some (client_payload None "echo hi" None)) ∅ = Ok (j, s)
    /\ cfg_MaxRetries cfg_five = 5
    /\ MaxRetries j = 3
    /\ (col_max_retries <$> s !! "uuid-0") = Some 3
    /\ ID j = "uuid-0".
Proof.
  eexists _, _. split; [reflexivity|]. repeat split.
Qed.

(** ** The RFC3339 layout read back *)

Lemma all_below_spec (P : Z -> bool) (n : positive) :
  all_below P n = true -> forall z, 0 <= z < Z.pos n -> P z = true.
Proof.
  unfold all_below.
  set (f := fun zb : Z * bool => (fst zb + 1, snd zb && P (fst zb))).
  assert (forall p,
             fst (Pos.iter f (0, true) p) = Z.pos p /\
             (snd (Pos.iter f (0, true) p) = true ->
              forall z, 0 <= z < Z.pos p -> P z = true)) as H.
  { induction p as [|p [IH1 IH2]] using Pos.peano_ind.
    - cbn. split; [reflexivity|]. intros H z Hz.
      assert (z = 0) as -> by lia. exact H.
    - rewrite Pos.iter_succ. unfold f at 1. cbn [fst snd]. split.
      + rewrite IH1. lia.
      + intros H z Hz. apply andb_prop in H as [Hb HP].
        destruct (Z.eq_dec z (Z.pos p)) as [->|Hne].
        * now rewrite <- IH1.
        * apply IH2; [assumption|lia]. }
  apply H.
Qed.

Lemma digit_char_spec (d : Z) :
  0 <= d <= 9 ->
  isDigit (digit_char d) = true /\
  Z.of_nat (nat_of_ascii (digit_char d)) - 48 = d.
Proof.
  intros Hd.
  assert (all_below (fun d => isDigit (digit_char d)
                      && (Z.of_nat (nat_of_ascii (digit_char d)) - 48 =? d))
            10 = true) as H by (vm_compute; reflexivity).
  pose proof (all_below_spec _ _ H d ltac:(lia)) as Hd'.
  apply andb_prop in Hd' as [H1 H2]. split; [assumption|]. now apply Z.eqb_eq.
Qed.

Lemma appendInt_2 (n : Z) : 0 <= n < 100 -> appendInt n 2 = digits2 n.
Proof.
  intros Hn.
  assert (all_below (fun n => String.eqb (appendInt n 2) (digits2 n)) 100 = true)
    as H by (vm_compute; reflexivity).
  apply String.eqb_eq. apply (all_below_spec _ _ H). lia.
Qed.

Lemma appendInt_4 (n : Z) : 0 <= n < 10000 -> appendInt n 4 = digits4 n.
Proof.
  intros Hn.
  assert (all_below (fun n => String.eqb (appendInt n 4) (digits4 n)) 10000
          = true) as H by (vm_compute; reflexivity).
  apply String.eqb_eq. apply (all_below_spec _ _ H). lia.
Qed.

(** The calendar. *)
Lemma era_ok : all_below doe_ok 146097 = true.
Proof. vm_compute. reflexivity. Qed.

Lemma civil_from_days_era (z0 : Z) :
  civil_from_days z0
  = let '(yoe, m, d) := civil_of_doe ((z0 + 719468) mod 146097) in
    (yoe + (z0 + 719468) / 146097 * 400 + (if m <=? 2 then 1 else 0), m, d).
Proof.
  unfold civil_from_days, civil_of_doe. cbv zeta.
  replace (z0 + 719468 - (z0 + 719468) / 146097 * 146097)
    with ((z0 + 719468) mod 146097)
    by (rewrite Z.mod_eq by lia; lia).
  set (doe := (z0 + 719468) mod 146097).
  set (yoe := (doe - doe / 1460 + doe / 36524 - doe / 146096) / 365).
  set (mp := (5 * (doe - (365 * yoe + yoe / 4 - yoe / 100)) + 2) / 153).
  destruct ((if mp <? 10 then mp + 3 else mp - 9) <=? 2); f_equal; f_equal; lia.
Qed.

Lemma isLeap_era (y e : Z) : isLeap (y + e * 400) = isLeap y.
Proof.
  unfold isLeap.
  replace ((y + e * 400) mod 4) with (y mod 4)
    by (replace (y + e * 400) with (y + (e * 100) * 4) by lia;
        now rewrite Z_mod_plus_full).
  replace ((y + e * 400) mod 100) with (y mod 100)
    by (replace (y + e * 400) with (y + (e * 4) * 100) by lia;
        now rewrite Z_mod_plus_full).
  now rewrite Z_mod_plus_full.
Qed.

Lemma daysIn_era (m y e : Z) : daysIn m (y + e * 400) = daysIn m y.
Proof. unfold daysIn. now rewrite isLeap_era. Qed.

Lemma civil_roundtrip (z0 : Z) :
  let '(y, m, d) := civil_from_days z0 in
  1 <= m <= 12 /\ 1 <= d <= daysIn m y /\ days_from_civil y m d = z0.
Proof.
  rewrite civil_from_days_era.
  pose proof (Z.mod_pos_bound (z0 + 719468) 146097 ltac:(lia)) as Hdoe.
  pose proof (all_below_spec _ _ era_ok _ Hdoe) as Hok.
  unfold doe_ok in Hok.
  destruct (civil_of_doe ((z0 + 719468) mod 146097)) as [[yoe m] d] eqn:Hc.
  repeat (apply andb_prop in Hok as [Hok ?]).
  repeat match goal with
         | H : (_ <=? _) = true |- _ => apply Z.leb_le in H
         | H : (_ =? _) = true |- _ => apply Z.eqb_eq in H
         end.
  set (era := (z0 + 719468) / 146097).
  split; [lia|]. split.
  - replace (yoe + era * 400 + (if m <=? 2 then 1 else 0))
      with (yoe + (if m <=? 2 then 1 else 0) + era * 400) by lia.
    rewrite daysIn_era. lia.
  - unfold days_from_civil.
    replace ((if m <=? 2
              then yoe + era * 400 + (if m <=? 2 then 1 else 0) - 1
              else yoe + era * 400 + (if m <=? 2 then 1 else 0)))
      with (yoe + era * 400) by (destruct (m <=? 2); lia).
    assert ((yoe + era * 400) / 400 = era) as ->.
    { rewrite Z.div_add by lia. rewrite Z.div_small by lia. lia. }
    replace (yoe + era * 400 - era * 400) with yoe by lia.
    unfold doe_of_civil in *.
    match goal with H : _ = (z0 + 719468) mod 146097 |- _ => rewrite H end.
    unfold era. rewrite Z.mod_eq by lia. lia.
Qed.

(** Parsing what was formatted. *)
Ltac divmod := Z.div_mod_to_equations; lia.

Lemma parseUint_digits2 (n lo hi : Z) :
  0 <= n < 100 -> lo <= n <= hi ->
  parseUint [digit_char (n / 10); digit_char (n mod 10)] lo hi = Some n.
Proof.
  intros Hn Hr. unfold parseUint. cbn [atoi_aux].
  destruct (digit_char_spec (n / 10)) as [-> ->]; [divmod|].
  destruct (digit_char_spec (n mod 10)) as [-> ->]; [divmod|].
  replace ((0 * 10 + n / 10) * 10 + n mod 10) with n by divmod.
  destruct (Z.leb_spec lo n); [|lia]. destruct (Z.leb_spec n hi); [|lia].
  reflexivity.
Qed.

Lemma parseUint_digits4 (n lo hi : Z) :
  0 <= n < 10000 -> lo <= n <= hi ->
  parseUint [digit_char (n / 1000); digit_char (n / 100 mod 10);
             digit_char (n mod 100 / 10); digit_char (n mod 100 mod 10)]
    lo hi = Some n.
Proof.
  intros Hn Hr. unfold parseUint. cbn [atoi_aux].
  destruct (digit_char_spec (n / 1000)) as [-> ->]; [divmod|].
  destruct (digit_char_spec (n / 100 mod 10)) as [-> ->]; [divmod|].
  destruct (digit_char_spec (n mod 100 / 10)) as [-> ->]; [divmod|].
  destruct (digit_char_spec (n mod 100 mod 10)) as [-> ->]; [divmod|].
  replace ((((0 * 10 + n / 1000) * 10 + n / 100 mod 10) * 10
            + n mod 100 / 10) * 10 + n mod 100 mod 10) with n by divmod.
  destruct (Z.leb_spec lo n); [|lia]. destruct (Z.leb_spec n hi); [|lia].
  reflexivity.
Qed.

Lemma parse_render (y m d h mi s : Z) (zone : string) (off : Z) :
  0 <= y <= 9999 -> 1 <= m <= 12 -> 1 <= d <= daysIn m y -> d <= 31 ->
  0 <= h <= 23 -> 0 <= mi <= 59 -> 0 <= s <= 59 ->
  parseFraction (list_ascii_of_string zone) = (0, list_ascii_of_string zone) ->
  parseZone (list_ascii_of_string zone) = Some off ->
  parseRFC3339 (render y m d h mi s zone)
  = Some (mkTime ((days_from_civil y m d * 86400 + h * 3600 + mi * 60 + s
                   - off) * Second) off).
Proof.
  intros Hy Hm Hd Hd31 Hh Hmi Hs Hfrac Hzone.
  unfold render, digits4, digits2, parseRFC3339.
  match goal with
  | |- context [list_ascii_of_string ?s] =>
      let l := eval cbv beta iota fix delta [String.append list_ascii_of_string] in
               (list_ascii_of_string s) in
      change (list_ascii_of_string s) with l
  end.
  fold (list_ascii_of_string zone).
  cbn -[days_from_civil daysIn Z.mul Z.add Z.sub Z.div Z.modulo Z.leb Z.ltb
        Z.eqb Z.opp parseUint parseZone parseFraction Second list_ascii_of_string].
  rewrite (parseUint_digits4 y), (parseUint_digits2 m), (parseUint_digits2 d),
    (parseUint_digits2 h), (parseUint_digits2 mi) by lia.
  rewrite take_0, drop_0.
  rewrite (parseUint_digits2 s) by lia.
  rewrite Hfrac, Hzone. do 2 f_equal. lia.
Qed.

(** The zone. *)
Lemma formatZone_parse (off : Z) :
  off mod 60 = 0 -> -86400 < off < 86400 ->
  parseFraction (list_ascii_of_string (formatZone off))
  = (0, list_ascii_of_string (formatZone off))
  /\ parseZone (list_ascii_of_string (formatZone off)) = Some off.
Proof.
  intros H60 Hb. unfold formatZone.
  destruct (Z.eqb_spec off 0) as [->|Hne]; [split; reflexivity|].
  set (zone := Z.quot off 60).
  assert (off = 60 * zone) as Hoff.
  { unfold zone. rewrite Z.quot_div_exact; [|lia|].
    - rewrite Z.mod_divide in H60 by lia. destruct H60 as [k ->].
      rewrite Z.div_mul by lia. lia.
    - apply Z.mod_divide; [lia|assumption]. }
  rewrite !appendInt_2 by (Z.div_mod_to_equations; lia).
  unfold digits2.
  destruct (Z.ltb_spec zone 0) as [Hneg|Hpos].
  - cbv beta iota fix delta [String.append list_ascii_of_string].
    split; [reflexivity|].
    unfold parseZone.
    cbn -[Z.mul Z.add Z.sub Z.div Z.modulo Z.leb Z.ltb Z.eqb Z.opp Z.abs
          parseUint].
    rewrite (parseUint_digits2 (Z.abs zone / 60)),
      (parseUint_digits2 (Z.abs zone mod 60)) by (Z.div_mod_to_equations; lia).
    f_equal. Z.div_mod_to_equations. lia.
  - cbv beta iota fix delta [String.append list_ascii_of_string].
    split; [reflexivity|].
    unfold parseZone.
    cbn -[Z.mul Z.add Z.sub Z.div Z.modulo Z.leb Z.ltb Z.eqb Z.opp Z.abs
          parseUint].
    rewrite (parseUint_digits2 (Z.abs zone / 60)),
      (parseUint_digits2 (Z.abs zone mod 60)) by (Z.div_mod_to_equations; lia).
    f_equal. Z.div_mod_to_equations. lia.
Qed.

Lemma Format_fields (t : Time) :
  representable t ->
  let loc := unixSec t + zoneOffset t in
  let rem := loc mod 86400 in
  exists y m d,
    civil_from_days (loc / 86400) = (y, m, d) /\
    0 <= y <= 9999 /\ 1 <= m <= 12 /\ 1 <= d <= daysIn m y /\ d <= 31 /\
    0 <= rem / 3600 <= 23 /\ 0 <= rem mod 3600 / 60 <= 59 /\
    0 <= rem mod 60 <= 59 /\
    days_from_civil y m d = loc / 86400 /\
    Format t = render y m d (rem / 3600) (rem mod 3600 / 60) (rem mod 60)
                 (formatZone (zoneOffset t)).
Proof.
  intros (Hy & Hz60 & Hzb) loc rem. unfold year_of in Hy. fold loc in Hy.
  unfold Format. fold loc. fold rem.
  pose proof (civil_roundtrip (loc / 86400)) as Hc.
  destruct (civil_from_days (loc / 86400)) as [[y m] d].
  cbn [fst] in Hy. destruct Hc as (Hm & Hd & Hdays).
  assert (0 <= rem < 86400) as Hrem by (apply Z.mod_pos_bound; lia).
  assert (d <= 31) as Hd31.
  { destruct Hd as [_ Hd]. unfold daysIn in Hd.
    repeat match type of Hd with
           | context [if ?b then _ else _] => destruct b
           end; lia. }
  clearbody rem. clearbody loc.
  assert (0 <= rem / 3600 <= 23) as Hh by (clear - Hrem; divmod).
  assert (0 <= rem mod 3600 / 60 <= 59) as Hmi by (clear - Hrem; divmod).
  assert (0 <= rem mod 60 <= 59) as Hs by (clear - Hrem; divmod).
  exists y, m, d. repeat split; try lia.
  rewrite (appendInt_4 y) by lia.
  rewrite (appendInt_2 m), (appendInt_2 d), (appendInt_2 (rem / 3600)),
    (appendInt_2 (rem mod 3600 / 60)), (appendInt_2 (rem mod 60)) by lia.
  reflexivity.
Qed.

Lemma parse_Format (t : Time) :
  representable t -> parseRFC3339 (Format t) = Some (truncate_second t).
Proof.
  intros Ht. pose proof Ht as (_ & Hz60 & Hzb).
  destruct (Format_fields t Ht)
    as (y & m & d & _ & Hy & Hm & Hd & Hd31 & Hh & Hmi & Hs & Hdays & ->).
  destruct (formatZone_parse (zoneOffset t) Hz60 Hzb) as [Hfrac Hzone].
  rewrite (parse_render _ _ _ _ _ _ _ (zoneOffset t)); try assumption.
  unfold truncate_second. do 3 f_equal. rewrite Hdays.
  remember (unixSec t + zoneOffset t) as loc eqn:Hloc.
  clear - Hloc. divmod.
Qed.

(** A representable time comes back from its RFC3339 text with its
    fraction of a second dropped, and nothing else changed. *)
Lemma canonical_truncates (t : Time) :
  representable t -> canonical t = truncate_second t.
Proof.
  intros H. unfold canonical, Parse. now rewrite parse_Format.
Qed.

(** ** The byte order of RFC3339 text and the order of time *)










Lemma digits2_length (n : Z) : String.length (digits2 n) = 2%nat.
Proof. reflexivity. Qed.





(** ** Saving and reading back *)

Section RoundTrip.

Variables (j : Job) (s : Store).

Lemma scanJob_row_of_job (old : Row) :
  scanJob (Some (ID j, on_conflict_update old (row_of_job j)))
  = Ok (set_CreatedAt (Parse (col_created_at old)) (canonical_job j)).
Proof.
  unfold scanJob, job_of_row, canonical_job, canonical, set_CreatedAt. cbn.
  now destruct (NextRetryAt j).
Qed.

Lemma GetJob_SaveJob :
  GetJob (ID j) (SaveJob j s)
  = Ok (set_CreatedAt
          (match s !! ID j with
           | Some old => Parse (col_created_at old)
           | None => canonical (CreatedAt j)
           end)
          (canonical_job j)).
Proof.
  unfold GetJob. rewrite SaveJob_lookup. cbn [fmap option_fmap option_map].
  rewrite scanJob_row_of_job. now destruct (s !! ID j).
Qed.

End RoundTrip.

(** C9 (as the code has it).  [GetJob] after [SaveJob] of the same id
    gives a job whose id, command, state, attempts, max_retries,
    worker_id, error and output are those saved, whose [next_retry_at] is
    present exactly when it was, and whose [updated_at] and
    [next_retry_at] are the saved ones in RFC3339 canonical form: for a
    representable time, the same instant and zone with the fraction of a
    second dropped.  Its [created_at] is the saved one in canonical form
    when the id was not in the table, and the one the table already had
    otherwise. *)
Theorem SaveJob_GetJob_roundtrip (j : Job) (s : Store) :
  exists j',
    GetJob (ID j) (SaveJob j s) = Ok j' /\
    ID j' = ID j /\ Command j' = Command j /\ State j' = State j /\
    Attempts j' = Attempts j /\ MaxRetries j' = MaxRetries j /\
    WorkerID j' = WorkerID j /\ Error j' = Error j /\ Output j' = Output j /\
    (NextRetryAt j' = None <-> NextRetryAt j = None) /\
    NextRetryAt j' = canonical <$> NextRetryAt j /\
    UpdatedAt j' = canonical (UpdatedAt j) /\
    CreatedAt j' = match s !! ID j with
                   | Some old => Parse (col_created_at old)
                   | None => canonical (CreatedAt j)
                   end /\
    (s !! ID j = None -> j' = canonical_job j) /\
    (representable (UpdatedAt j) ->
     UpdatedAt j' = truncate_second (UpdatedAt j)) /\
    (forall t, NextRetryAt j = Some t -> representable t ->
               NextRetryAt j' = Some (truncate_second t)) /\
    (s !! ID j = None -> representable (CreatedAt j) ->
     CreatedAt j' = truncate_second (CreatedAt j)).
Proof.
  eexists. split; [apply GetJob_SaveJob|].
  cbn. repeat split; try (destruct (NextRetryAt j); simpl; congruence).
  - intros ->. reflexivity.
  - intros H. now apply canonical_truncates.
  - intros t -> H. cbn. now rewrite canonical_truncates.
  - intros -> H. now apply canonical_truncates.
Qed.

Lemma SaveJob_GetJob_roundtrip_witness :
  exists j',
    GetJob "job-1" (SaveJob failed_once ∅) = Ok j' /\
    State j' = StateFailed /\ Attempts j' = 1 /\
    UpdatedAt j' = truncate_second (after_t0 1) /\
    NextRetryAt j' = Some (truncate_second (after_t0 2)) /\
    CreatedAt j' = truncate_second (UTC t0).
Proof.
  destruct (SaveJob_GetJob_roundtrip failed_once ∅)
    as (j' & Hget & _ & _ & Hst & Hatt & _ & _ & _ & _ & _ & _ & _ & _ & _
        & Hu & Hn & Hc).
  exists j'. split; [exact Hget|]. split; [exact Hst|]. split; [exact Hatt|].
  split; [|split].
  - apply Hu. vm_compute. intuition discriminate.
  - apply (Hn (after_t0 2)); [reflexivity|]. vm_compute. intuition discriminate.
  - apply Hc; [reflexivity|]. vm_compute. intuition discriminate.
Defined.

(** C9, as stated, fails: a job saved under an id that the table already
    holds reads back with the [created_at] of the stored row, which is
    not the saved job's, even in canonical form. *)
Lemma SaveJob_GetJob_roundtrip_counterexample :
  exists j',
    GetJob "job-1" (SaveJob enqueued_again (SaveJob failed_once ∅)) = Ok j' /\
    Command j' = Command enqueued_again /\
    CreatedAt j' = canonical (CreatedAt failed_once) /\
    CreatedAt j' <> canonical (CreatedAt enqueued_again) /\
    Format (CreatedAt j') <> Format (CreatedAt enqueued_again).
Proof.
  eexists. split; [vm_compute; reflexivity|].
  split; [reflexivity|]. split; [vm_compute; reflexivity|].
  split; vm_compute; discriminate.
Qed.

(** C10.  [SaveJob] of a job whose id is in the table leaves the row's
    [created_at] as it was, whatever the job's own, overwrites every
    other column with the job's values, and leaves the other rows
    alone. *)
Theorem SaveJob_keeps_created_at (j : Job) (s : Store) (old : Row) :
  s !! ID j = Some old ->
  exists r,
    SaveJob j s !! ID j = Some r /\
    col_created_at r = col_created_at old /\
    col_command r = Command j /\ col_state r = State j /\
    col_attempts r = Attempts j /\ col_max_retries r = MaxRetries j /\
    col_updated_at r = Format (UpdatedAt j) /\
    col_next_retry_at r = Format <$> NextRetryAt j /\
    col_worker_id r = Some (WorkerID j) /\ col_error r = Some (Error j) /\
    col_output r = Some (Output j) /\
    forall i, i <> ID j -> SaveJob j s !! i = s !! i.
Proof.
  intros Hold. eexists. split.
  - rewrite SaveJob_lookup, Hold. reflexivity.
  - cbn. repeat split. intros i Hi. now apply SaveJob_lookup_ne.
Qed.

Lemma SaveJob_keeps_created_at_witness :
  exists r,
    SaveJob enqueued_again (SaveJob failed_once ∅) !! "job-1" = Some r /\
    col_created_at r = "2023-11-14T22:13:20Z" /\
    Format (CreatedAt enqueued_again) = "2023-11-14T22:15:00Z" /\
    col_command r = "exit 0" /\ col_state r = StatePending /\
    col_attempts r = 0 /\ col_updated_at r = "2023-11-14T22:15:00Z" /\
    col_next_retry_at r = None.
Proof.
  destruct (SaveJob_keeps_created_at enqueued_again (SaveJob failed_once ∅)
              (row_of_job failed_once))
    as (r & Hr & Hc & Hcmd & Hst & Hat & _ & Hup & Hnx & _).
  - vm_compute. reflexivity.
  - exists r. split; [exact Hr|].
    split; [rewrite Hc; vm_compute; reflexivity|].
    split; [vm_compute; reflexivity|].
    split; [exact Hcmd|]. split; [exact Hst|]. split; [exact Hat|].
    split; [rewrite Hup; vm_compute; reflexivity|exact Hnx].
Defined.

(** ** The claim *)

Section ClaimTx.

Variables (workerID : string) (now1 now2 : Time).

Lemma GetNextPendingJob_tx_no_failure (s_read s : Store) :
  GetNextPendingJob_tx no_failure workerID now1 now2 s_read s
  = GetNextPendingJob_on workerID now1 now2 s_read s.
Proof.
  unfold GetNextPendingJob_tx, GetNextPendingJob_on. cbn [no_failure
    begin_err query_err exec_err rows_err commit_err].
  destruct (queryNext (Format now1) s_read) as [[id r]|]; cbn [scanJob].
  - destruct (execLock _ _ _ _) as [s' rows]. reflexivity.
  - reflexivity.
Qed.


End ClaimTx.




(** On the sample table both jobs are runnable 3 s after [t0]; the claim
    takes the older, failed one, and leaves the other row alone. *)
Example GetNextPendingJob_sample :
  GetNextPendingJob "w-aaaa" (after_t0 3) (after_t0 4) two_runnable
  = (Ok (Some (set_WorkerID "w-aaaa"
                 (set_State StateProcessing (canonical_job failed_once)))),
     <["job-1" := lock_row "w-aaaa" "2023-11-14T22:13:24Z"
                    (row_of_job failed_once)]> two_runnable).
Proof. vm_compute. reflexivity. Qed.

(** A lost race: the candidate read from the table is already in
    [processing] when the UPDATE runs; no job and no error come back. *)
Example GetNextPendingJob_lost_race :
  let taken := (GetNextPendingJob "w-bbbb" (after_t0 3) (after_t0 3)
                  two_runnable).2 in
  GetNextPendingJob_on "w-aaaa" (after_t0 3) (after_t0 4) two_runnable taken
  = (Ok None, taken).
Proof. vm_compute. reflexivity. Qed.

(** An interleaving in which two workers race for one pending job: both
    SELECT it, the first UPDATE wins, the second affects no row. *)
Example race_two_workers :
  let sys := run [(0%nat, after_t0 1); (1%nat, after_t0 1);
                  (0%nat, after_t0 2); (1%nat, after_t0 2)]
                 (start ["w-aaaa"; "w-bbbb"] (SaveJob pending_late ∅)) in
  c_call <$> sys.1
  = [Returned (Ok (Some (set_WorkerID "w-aaaa"
                           (set_State StateProcessing
                              (canonical_job pending_late)))));
     Returned (Ok None)]
  /\ (col_worker_id <$> sys.2 !! "job-0") = Some (Some "w-aaaa").
Proof. vm_compute. split; reflexivity. Qed.

(** ** Invariants of the dispatch core *)

Section Invariants.

Variable cfg : Config.

(** Splits an invariant into its clauses and closes those that a state
    name or a hypothesis decides. *)
Ltac inv_clauses :=
  repeat split; intros; try assumption; try discriminate; eauto;
  try (unfold is_int, int_min, int_max in *; lia).

Lemma row_inv_on_conflict (old new : Row) :
  row_inv new -> row_inv (on_conflict_update old new).
Proof. unfold row_inv. cbn. tauto. Qed.

Lemma SaveJob_inv (j : Job) (s : Store) :
  row_inv (row_of_job j) -> table_inv s -> table_inv (SaveJob j s).
Proof.
  intros Hj Hs id r. destruct (decide (id = ID j)) as [->|Hne].
  - rewrite SaveJob_lookup. intros [= <-]. now apply row_inv_on_conflict.
  - rewrite SaveJob_lookup_ne by exact Hne. apply Hs.
Qed.

Lemma DeleteJob_inv (id : string) (s : Store) :
  table_inv s -> table_inv (DeleteJob id s).
Proof.
  intros Hs i r. unfold DeleteJob. intros H.
  apply lookup_delete_Some in H as [_ H]. eapply Hs; eauto.
Qed.

Lemma job_of_row_inv (id : string) (r : Row) :
  row_inv r -> job_inv (job_of_row id r).
Proof. unfold row_inv, job_inv. cbn. tauto. Qed.

Lemma is_int_0 : is_int 0.
Proof. unfold is_int, int_min, int_max. lia. Qed.

Lemma is_int_3 : is_int 3.
Proof. unfold is_int, int_min, int_max. lia. Qed.

Lemma int_wrap_is_int (z : Z) : is_int (int_wrap z).
Proof.
  unfold is_int, int_wrap, int_min, int_max.
  pose proof (Z.mod_pos_bound (z + 2 ^ 63) (2 ^ 64) ltac:(lia)). lia.
Qed.

Lemma lock_row_inv (w now : string) (r : Row) :
  w <> "" -> row_inv r -> row_inv (lock_row w now r).
Proof.
  unfold row_inv. cbn. intros Hw (Ha & Hm & _ & _). inv_clauses.
Qed.

Lemma MarkAsProcessing_inv (w : string) (now : Time) (j : Job) :
  w <> "" -> job_inv j ->
  job_inv (MarkAsProcessing w now j)
  /\ row_inv (row_of_job (MarkAsProcessing w now j)).
Proof.
  unfold job_inv, row_inv. cbn. intros Hw (Ha & Hm). inv_clauses.
Qed.

Lemma MarkAsCompleted_inv (out : string) (now : Time) (j : Job) :
  job_inv j -> row_inv (row_of_job (MarkAsCompleted out now j)).
Proof.
  unfold job_inv, row_inv. cbn. intros (Ha & Hm). inv_clauses.
Qed.

Lemma settled_failure_inv (clk : Clock) (e out : string) (j : Job) :
  job_inv j -> row_inv (row_of_job (settled_failure cfg clk e out j)).
Proof.
  unfold job_inv, settled_failure, CanRetry. intros (Ha & Hm).
  destruct (Z.ltb_spec (Attempts j) (MaxRetries j)) as [Hlt|Hge].
  - unfold row_inv. cbn.
    assert (int_wrap (Attempts j + 1) = Attempts j + 1) as ->.
    { apply int_wrap_id. unfold is_int, int_min, int_max in *. lia. }
    inv_clauses; unfold is_int, int_min, int_max in *; lia.
  - unfold row_inv. cbn. inv_clauses.
Qed.

Lemma ResetForRetry_inv (now : Time) (j : Job) :
  job_inv j -> row_inv (row_of_job (ResetForRetry now j)).
Proof.
  unfold job_inv, row_inv. cbn. intros (Ha & Hm).
  inv_clauses; apply is_int_0.
Qed.

Lemma enqueueCmd_inv uuid now id command mr (s : Store) j0 s0 :
  is_int (default 0 mr) ->
  enqueueCmd cfg uuid now (Some (client_payload id command mr)) s
  = Ok (j0, s0) ->
  table_inv s -> table_inv s0.
Proof.
  intros Hmr Henq Hs.
  destruct (enqueueCmd_client _ _ _ _ _ _ _ _ _ Henq) as (_ & -> & ->).
  apply SaveJob_inv; [|exact Hs].
  unfold row_inv. cbn.
  inv_clauses; try apply is_int_0;
    destruct (default 0 mr =? 0); try apply is_int_3; apply Hmr.
Qed.

Lemma GetJob_inv (id : string) (s : Store) (j : Job) :
  table_inv s -> GetJob id s = Ok j -> job_inv j /\ ID j = id.
Proof.
  unfold GetJob. intros Hs. destruct (s !! id) as [r|] eqn:Hr; [|discriminate].
  cbn. intros [= <-]. split; [|reflexivity].
  apply job_of_row_inv. eapply Hs; eauto.
Qed.

Lemma dlqRetryCmd_inv now jobID (s s' : Store) :
  dlqRetryCmd now jobID s = Ok s' -> table_inv s -> table_inv s'.
Proof.
  unfold dlqRetryCmd. intros H Hs.
  destruct (GetJob jobID s) as [j|e] eqn:Hj; [|discriminate].
  destruct (negb _); [discriminate|]. injection H as <-.
  apply SaveJob_inv; [|exact Hs].
  apply ResetForRetry_inv. eapply GetJob_inv; eauto.
Qed.

Lemma dlqDeleteCmd_inv jobID (s s' : Store) :
  dlqDeleteCmd jobID s = Ok s' -> table_inv s -> table_inv s'.
Proof.
  unfold dlqDeleteCmd. intros H Hs.
  destruct (GetJob jobID s) as [j|e]; [|discriminate].
  destruct (negb _); [discriminate|]. injection H as <-.
  now apply DeleteJob_inv.
Qed.

Lemma dlqClearCmd_inv (s : Store) : table_inv s -> table_inv (dlqClearCmd s).
Proof.
  unfold dlqClearCmd. generalize (GetDLQJobs s) as l.
  intros l. revert s. induction l as [|j l IH]; intros s Hs; [exact Hs|].
  cbn [fold_left]. apply IH. now apply DeleteJob_inv.
Qed.

Lemma worker_step_inv clk run (w w' : Worker) (s s' : Store) :
  worker_step cfg clk run w s = (w', s') ->
  worker_inv w -> table_inv s -> worker_inv w' /\ table_inv s'.
Proof.
  unfold worker_step, worker_inv. destruct w as [wid ph]. cbn [w_id w_phase].
  intros Hstep (Hwid & Hph) Hs. destruct ph as [|j|j|j].
  - destruct (queryNext (Format (t_select clk)) s) as [[id r]|] eqn:Hq;
      cbn [scanJob] in Hstep; injection Hstep as <- <-; cbn [w_id w_phase].
    + destruct (queryNext_Some _ _ _ _ Hq) as (Hr & _ & _).
      refine (conj (conj Hwid _) Hs). apply job_of_row_inv. eapply Hs; eauto.
    + exact (conj (conj Hwid I) Hs).
  - unfold execLock in Hstep. destruct (s !! ID j) as [r|] eqn:Hr.
    + destruct (String.eqb (col_state r) StatePending
                || String.eqb (col_state r) StateFailed);
        cbn in Hstep; injection Hstep as <- <-; cbn [w_id w_phase].
      * refine (conj (conj Hwid Hph) _).
        intros id r'. destruct (decide (id = ID j)) as [->|Hne].
        -- rewrite lookup_insert_eq. intros [= <-].
           apply lock_row_inv; [assumption|]. eapply Hs; eauto.
        -- rewrite lookup_insert_ne by congruence. apply Hs.
      * exact (conj (conj Hwid I) Hs).
    + cbn in Hstep. injection Hstep as <- <-. exact (conj (conj Hwid I) Hs).
  - injection Hstep as <- <-. cbn [w_id w_phase].
    destruct (MarkAsProcessing_inv wid (t_processing clk) j Hwid Hph)
      as [Hj Hrow].
    refine (conj (conj Hwid Hj) _). now apply SaveJob_inv.
  - destruct (runErr run) as [e|].
    + rewrite (surjective_pairing (handleFailure _ _ _ _ _ _)) in Hstep.
      rewrite handleFailure_saves, handleFailure_routes in Hstep.
      injection Hstep as <- <-. cbn [w_id w_phase].
      refine (conj (conj Hwid I) _).
      apply SaveJob_inv; [|exact Hs]. now apply settled_failure_inv.
    + rewrite handleSuccess_saves in Hstep.
      injection Hstep as <- <-. cbn [w_id w_phase].
      refine (conj (conj Hwid I) _).
      apply SaveJob_inv; [|exact Hs]. now apply MarkAsCompleted_inv.
Qed.

Lemma step_inv (w : World) (e : Event) :
  event_ok e -> world_inv w -> world_inv (step cfg w e).
Proof.
  destruct w as [ws s]. unfold world_inv. cbn [fst snd].
  intros He [Hws Hs]. destruct e as [uuid now id command mr|now jobID|jobID| |i clk run];
    cbn [step fst snd].
  - destruct (enqueueCmd _ _ _ _ _) as [[j0 s0]|e] eqn:Henq;
      cbn [fst snd]; split; try assumption.
    eapply enqueueCmd_inv; eauto.
  - destruct (dlqRetryCmd _ _ _) as [s'|e] eqn:Hcmd;
      cbn [fst snd]; split; try assumption.
    eapply dlqRetryCmd_inv; eauto.
  - destruct (dlqDeleteCmd _ _) as [s'|e] eqn:Hcmd;
      cbn [fst snd]; split; try assumption.
    eapply dlqDeleteCmd_inv; eauto.
  - split; [assumption|]. now apply dlqClearCmd_inv.
  - destruct (ws !! i) as [wk|] eqn:Hi; [|split; assumption].
    destruct (worker_step cfg clk run wk s) as [wk' s'] eqn:Hstep.
    cbn [fst snd].
    assert (worker_inv wk) as Hwk.
    { rewrite Forall_forall in Hws. apply Hws.
      apply list_elem_of_lookup. eauto. }
    destruct (worker_step_inv _ _ _ _ _ _ Hstep Hwk Hs) as [Hwk' Hs'].
    split; [|exact Hs'].
    apply Forall_forall. intros x Hx.
    apply list_elem_of_lookup in Hx as [k Hk].
    destruct (decide (i = k)) as [<-|Hne].
    + rewrite list_lookup_insert_eq in Hk
        by (eapply lookup_lt_Some; eauto).
      now injection Hk as <-.
    + rewrite list_lookup_insert_ne in Hk by exact Hne.
      rewrite Forall_forall in Hws. apply Hws.
      apply list_elem_of_lookup. eauto.
Qed.

Lemma run_events_inv (events : list Event) (w : World) :
  Forall event_ok events -> world_inv w ->
  world_inv (run_events cfg events w).
Proof.
  revert w. induction events as [|e events IH]; intros w Hev Hw; [exact Hw|].
  inversion Hev; subst. cbn [run_events fold_left].
  apply IH; [assumption|]. now apply step_inv.
Qed.

Lemma boot_inv (ids : list string) :
  Forall (fun id => id <> "") ids -> world_inv (boot ids).
Proof.
  intros Hids. split.
  - unfold boot. cbn [fst]. induction Hids; constructor; auto.
    split; [assumption|exact I].
  - intros id r. unfold boot. cbn [snd]. rewrite lookup_empty. discriminate.
Qed.

(** Every row of every table that the dispatch core can reach. *)
Lemma reachable_rows (ids : list string) (events : list Event) id r :
  Forall (fun id => id <> "") ids -> Forall event_ok events ->
  (run_events cfg events (boot ids)).2 !! id = Some r -> row_inv r.
Proof.
  intros Hids Hev.
  destruct (run_events_inv events (boot ids) Hev (boot_inv ids Hids)) as [_ H].
  apply H.
Qed.

End Invariants.

(** ** The statements of a worker and its tick *)

Lemma worker_steps_S n cfg clk run (w : Worker) (s : Store) :
  worker_steps (S n) cfg clk run (w, s)
  = worker_steps n cfg clk run (worker_step cfg clk run w s).
Proof.
  unfold worker_steps. rewrite Nat.iter_succ_r. reflexivity.
Qed.

(** Four statements of an idle worker that nothing interleaves with are
    one [processNext]. *)
Lemma worker_steps_processNext cfg clk run wid (s : Store) :
  worker_steps 4 cfg clk run (mkWorker wid Idle, s)
  = (mkWorker wid Idle, processNext wid cfg clk run s).
Proof.
  destruct (queryNext (Format (t_select clk)) s) as [[id r]|] eqn:Hq.
  - destruct (queryNext_Some _ _ _ _ Hq) as (Hr & Hrun & _).
    pose proof (execLock_hit wid (t_lock clk) id s r Hr
                  (runnable_guard _ _ Hrun)) as Hlock.
    assert (worker_step cfg clk run (mkWorker wid Idle) s
            = (mkWorker wid (Candidate (job_of_row id r)), s)) as H1.
    { unfold worker_step. cbn [w_phase w_id]. now rewrite Hq. }
    assert (worker_step cfg clk run
              (mkWorker wid (Candidate (job_of_row id r))) s
            = (mkWorker wid
                 (Claimed (set_WorkerID wid
                             (set_State StateProcessing (job_of_row id r)))),
               <[id := lock_row wid (Format (t_lock clk)) r]> s)) as H2.
    { unfold worker_step. cbn [w_phase w_id ID job_of_row].
      now rewrite Hlock. }
    rewrite worker_steps_S, H1, worker_steps_S, H2, worker_steps_S.
    unfold worker_step at 1. cbn [w_phase w_id].
    rewrite worker_steps_S. unfold worker_steps. cbn [Nat.iter].
    unfold processNext, GetNextPendingJob, GetNextPendingJob_on.
    rewrite Hq. cbn [scanJob ID job_of_row]. rewrite Hlock. cbn [Z.eqb].
    cbv iota. unfold worker_step. cbn [w_phase w_id]. unfold executeJob.
    fold (output_of run).
    destruct (runErr run); [destruct (handleFailure _ _ _ _ _ _)
                           | destruct (handleSuccess _ _ _ _)]; reflexivity.
  - assert (worker_step cfg clk run (mkWorker wid Idle) s
            = (mkWorker wid Idle, s)) as Hidle.
    { unfold worker_step. cbn [w_phase]. now rewrite Hq. }
    do 4 rewrite worker_steps_S, Hidle.
    unfold processNext, GetNextPendingJob, GetNextPendingJob_on.
    rewrite Hq. reflexivity.
Qed.

(** ** What the transitions keep true of claimed and of failed jobs *)

(** Checks a list of sample events. *)
Ltac events_ok :=
  cbv [events_reclaimed events_failed events_claimed app];
  repeat (constructor;
          [first [exact I | vm_compute; split; discriminate]|]);
  constructor.

(** C4 (as the code has it).  After every committed transition of the
    dispatch core (workers with non-empty ids, enqueue payloads with the
    keys [id?], [command], [max_retries?]), a row in [processing] has a
    non-empty [worker_id].  Its [next_retry_at] is not cleared: a claim
    leaves the job in [processing] under the claimant's id and keeps the
    [next_retry_at] it had, in the job marked by [MarkAsProcessing], in
    the row rewritten by the UPDATE of [GetNextPendingJob] and in the job
    that call returns, and in the row that [executeJob] then saves. *)
Theorem claim_keeps_next_retry_at
    (cfg : Config) (ids : list string) (events : list Event) :
  Forall (fun id => id <> "") ids -> Forall event_ok events ->
  (forall id r,
      (run_events cfg events (boot ids)).2 !! id = Some r ->
      col_state r = StateProcessing ->
      exists w, col_worker_id r = Some w /\ w <> "")
  /\ (forall workerID now j,
        let j' := MarkAsProcessing workerID now j in
        State j' = StateProcessing /\ WorkerID j' = workerID /\
        NextRetryAt j' = NextRetryAt j)
  /\ (forall workerID now1 now2 (s : Store) j s',
        GetNextPendingJob workerID now1 now2 s = (Ok (Some j), s') ->
        exists r r',
          s !! ID j = Some r /\ s' !! ID j = Some r' /\
          col_state r' = StateProcessing /\
          col_worker_id r' = Some workerID /\
          col_next_retry_at r' = col_next_retry_at r /\
          State j = StateProcessing /\ WorkerID j = workerID /\
          NextRetryAt j = Parse <$> col_next_retry_at r)
  /\ (forall workerID now j (s : Store),
        exists r',
          SaveJob (MarkAsProcessing workerID now j) s !! ID j = Some r' /\
          col_state r' = StateProcessing /\
          col_worker_id r' = Some workerID /\
          col_next_retry_at r' = Format <$> NextRetryAt j).
Proof.
  intros Hids Hev. split; [|split; [|split]].
  - intros id r Hr. apply (reachable_rows cfg ids events id r Hids Hev Hr).
  - intros workerID now j. cbn. repeat split.
  - intros workerID now1 now2 s j s' Hget.
    destruct (GetNextPendingJob_returns _ _ _ _ _ _ Hget)
      as (r & j0 & Hq & [= <-] & -> & ->).
    destruct (queryNext_Some _ _ _ _ Hq) as (Hr & _ & _).
    cbn [set_WorkerID set_State ID job_of_row] in *.
    exists r, (lock_row workerID (Format now2) r).
    rewrite lookup_insert_eq. repeat split. exact Hr.
  - intros workerID now j s. eexists. split.
    + apply (SaveJob_lookup (MarkAsProcessing workerID now j) s).
    + repeat split.
Qed.

Lemma claim_keeps_next_retry_at_witness :
  exists r,
    (run_events sample_cfg events_claimed (boot ["w-aaaa"])).2 !! "job-2"
    = Some r /\
    col_state r = StateProcessing /\
    exists w, col_worker_id r = Some w /\ w <> "".
Proof.
  destruct (claim_keeps_next_retry_at sample_cfg ["w-aaaa"] events_claimed)
    as (H & _).
  - repeat constructor. discriminate.
  - events_ok.
  - match goal with
    | |- exists r, ?x = Some r /\ _ =>
        let v := eval vm_compute in x in
        assert (x = v) as Hx by (vm_compute; reflexivity)
    end.
    eexists. split; [exact Hx|]. split; [reflexivity|].
    eapply H; [exact Hx|reflexivity].
Defined.

(** C4, as stated, fails: the failed job that the worker claims for its
    retry is in [processing] with its [next_retry_at] still set, in a
    table the dispatch core reaches; [MarkAsProcessing] does not clear
    it either. *)
Lemma claim_keeps_next_retry_at_counterexample :
  (exists r,
      (run_events sample_cfg events_reclaimed (boot ["w-aaaa"])).2 !! "job-2"
      = Some r /\
      col_state r = StateProcessing /\ col_worker_id r = Some "w-aaaa" /\
      col_next_retry_at r = Some "2023-11-14T22:13:22Z")
  /\ State failed_once = StateFailed
  /\ State retrying = StateProcessing /\ NextRetryAt retrying <> None.
Proof.
  split; [|split; [|split]].
  - eexists. split; [vm_compute; reflexivity|]. repeat split.
  - reflexivity.
  - reflexivity.
  - discriminate.
Qed.

(** C5 (as the code has it).  After every committed transition of the
    dispatch core (workers with non-empty ids, enqueue payloads with the
    keys [id?], [command], [max_retries?], the last a Go [int]), a row in
    [failed] has a [next_retry_at] and [attempts <= max_retries].  In particular a job that [handleFailure]
    leaves in [failed], which it does exactly when [CanRetry] held, has a
    retry time and one more attempt than it had, at most [max_retries]
    and possibly equal to it; the row saved says the same. *)
Theorem settled_failed_attempts_le_max
    (cfg : Config) (ids : list string) (events : list Event) :
  Forall (fun id => id <> "") ids -> Forall event_ok events ->
  (forall id r,
      (run_events cfg events (boot ids)).2 !! id = Some r ->
      col_state r = StateFailed ->
      col_next_retry_at r <> None /\ col_attempts r <= col_max_retries r)
  /\ (forall clk execErr output j (s : Store),
        is_int (Attempts j) -> is_int (MaxRetries j) ->
        let j' := (handleFailure cfg clk execErr output j s).1 in
        let s' := (handleFailure cfg clk execErr output j s).2 in
        (State j' = StateFailed <-> CanRetry j = true)
        /\ (State j' = StateFailed ->
            NextRetryAt j' <> None /\
            Attempts j' = Attempts j + 1 /\ MaxRetries j' = MaxRetries j /\
            Attempts j' <= MaxRetries j' /\
            exists r, s' !! ID j = Some r /\ col_state r = StateFailed /\
                      col_next_retry_at r <> None /\
                      col_attempts r = Attempts j + 1 /\
                      col_attempts r <= col_max_retries r)).
Proof.
  intros Hids Hev. split.
  - intros id r Hr. apply (reachable_rows cfg ids events id r Hids Hev Hr).
  - intros clk execErr output j s Ha Hm. cbn zeta.
    rewrite handleFailure_saves, handleFailure_routes.
    unfold settled_failure.
    destruct (CanRetry j) eqn:Hcan.
    + split; [tauto|]. intros _.
      unfold CanRetry in Hcan. apply Z.ltb_lt in Hcan.
      assert (int_wrap (Attempts j + 1) = Attempts j + 1) as Hw.
      { apply int_wrap_id. unfold is_int, int_min, int_max in *. lia. }
      cbn. rewrite Hw. repeat split; try discriminate; try lia.
      eexists. split.
      * apply (SaveJob_lookup (MarkAsFailed _ _ _ j) s).
      * cbn. rewrite Hw. repeat split; try discriminate; lia.
    + split; [|discriminate]. split; discriminate.
Qed.

Lemma settled_failed_attempts_le_max_witness :
  exists r,
    (run_events sample_cfg events_failed (boot ["w-aaaa"])).2 !! "job-2"
    = Some r /\
    col_state r = StateFailed /\
    col_next_retry_at r <> None /\ col_attempts r <= col_max_retries r.
Proof.
  destruct (settled_failed_attempts_le_max sample_cfg ["w-aaaa"] events_failed)
    as (H & _).
  - repeat constructor. discriminate.
  - events_ok.
  - match goal with
    | |- exists r, ?x = Some r /\ _ =>
        let v := eval vm_compute in x in
        assert (x = v) as Hx by (vm_compute; reflexivity)
    end.
    eexists. split; [exact Hx|]. split; [reflexivity|].
    eapply H; [exact Hx|reflexivity].
Defined.

(** C5, as stated, fails: the job that tolerates one failure is in
    [failed] with [attempts = max_retries = 1] after its first failure,
    in a table the dispatch core reaches.  And the invariant is one of
    payloads with the keys [id?], [command], [max_retries?] only: a
    payload that carries [state] and [attempts] is saved as it says, in
    [failed] with no [next_retry_at] and more attempts than
    [max_retries]. *)
Lemma settled_failed_attempts_counterexample :
  (exists r,
      (run_events sample_cfg events_failed (boot ["w-aaaa"])).2 !! "job-2"
      = Some r /\
      col_state r = StateFailed /\ col_attempts r = 1 /\
      col_max_retries r = 1 /\ ~ (col_attempts r < col_max_retries r))
  /\ (let j' := (handleFailure sample_cfg
                   (k_clock (tick_at "w-aaaa" 1 failing_run))
                   "exit status 1" "" last_chance ∅).1 in
      CanRetry last_chance = true /\ State j' = StateFailed /\
      ~ (Attempts j' < MaxRetries j'))
  /\ (exists j s r,
        enqueueCmd sample_cfg "uuid-0" t0 (Some payload_failed) ∅
        = Ok (j, s) /\
        s !! "job-f" = Some r /\ col_state r = StateFailed /\
        col_next_retry_at r = None /\
        col_attempts r = 7 /\ col_max_retries r = 2).
Proof.
  split; [|split].
  - eexists. split; [vm_compute; reflexivity|]. repeat split. discriminate.
  - vm_compute. repeat split; discriminate.
  - eexists _, _, _. split; [vm_compute; reflexivity|].
    split; [vm_compute; reflexivity|]. repeat split.
Qed.
